(** * slatedb-go: the block codec, its builder and iterator, and the memtable

    A shallow embedding of [internal/block.go] (Block, BlockBuilder,
    BlockIterator) and a model of the memtable that
    [slatedb/table/memtable_test.go] exercises.

    Conventions of the embedding.
    - A Go [[]byte] is a [list byte]; only the [len] elements of a slice are
      kept, its capacity and backing array are not.
    - Go's fixed-width integers are [Z] with the wrap-around written out
      ([Int.uint16], [Int.uint32], [Int.uint], [Int.int]).
    - A runtime panic is an [outcome]: [Panic] carries its kind.  A two-index
      slice expression [s[lo:hi]] whose upper bound lies past [len(s)] is
      checked by Go against [cap(s)], which the model does not carry; that
      single case is [Beyond], and nothing is claimed about it. *)

From Stdlib Require Import ZArith List Lia Bool String.
From Stdlib Require Import Init.Byte Strings.Byte.
Import ListNotations.
Open Scope Z_scope.

(* ------------------------------------------------------------------ *)
(** ** Machine integers *)

Module Int.

(** [uint16(z)] *)
Definition uint16 (z : Z) : Z := z mod 2 ^ 16.

(** [uint32(z)] *)
Definition uint32 (z : Z) : Z := z mod 2 ^ 32.

(** [uint(z)] on a 64-bit platform *)
Definition uint (z : Z) : Z := z mod 2 ^ 64.

(** [int(z)] on a 64-bit platform: two's complement *)
Definition int (z : Z) : Z := (z + 2 ^ 63) mod 2 ^ 64 - 2 ^ 63.

Definition max_int : Z := 2 ^ 63 - 1.

End Int.

(** [len(s)] as a mathematical integer *)
Definition len {A : Type} (s : list A) : Z := Z.of_nat (List.length s).

(** [byte(z)]: the low eight bits *)
Definition byte_of_Z (z : Z) : byte :=
  match Byte.of_N (Z.to_N (z mod 256)) with
  | Some b => b
  | None => x00
  end.

Definition Z_of_byte (b : byte) : Z := Z.of_N (Byte.to_N b).

(* ------------------------------------------------------------------ *)
(** ** Panics and slice expressions *)

Inductive panic : Type :=
| Explicit (msg : string)      (* panic("...") *)
| SliceBounds                  (* runtime error: slice bounds out of range *)
| IndexOutOfRange.             (* runtime error: index out of range *)

Inductive outcome (A : Type) : Type :=
| Ret (a : A)
| Panic (p : panic)
| Beyond.

Arguments Ret {A} a.
Arguments Panic {A} p.
Arguments Beyond {A}.

Definition bind {A B : Type} (m : outcome A) (f : A -> outcome B) : outcome B :=
  match m with
  | Ret a => f a
  | Panic p => Panic p
  | Beyond => Beyond
  end.

Declare Scope go_scope.
Delimit Scope go_scope with go.
Notation "x <- m ;; k" := (bind m (fun x => k))
  (at level 61, m at next level, right associativity) : go_scope.
Open Scope go_scope.

(** [s[lo:]]: the bounds are [0 <= lo <= len(s)] *)
Definition slice_from {A : Type} (s : list A) (lo : Z) : outcome (list A) :=
  if (lo <? 0) || (len s <? lo) then Panic SliceBounds
  else Ret (skipn (Z.to_nat lo) s).

(** [s[:hi]] with [hi <= len(s)] *)
Definition slice_to {A : Type} (s : list A) (hi : Z) : outcome (list A) :=
  if hi <? 0 then Panic SliceBounds
  else if len s <? hi then Beyond
  else Ret (firstn (Z.to_nat hi) s).

(** [s[lo:hi]] with [hi <= len(s)] *)
Definition slice {A : Type} (s : list A) (lo hi : Z) : outcome (list A) :=
  if (lo <? 0) || (hi <? lo) then Panic SliceBounds
  else if len s <? hi then Beyond
  else Ret (firstn (Z.to_nat (hi - lo)) (skipn (Z.to_nat lo) s)).

(* ------------------------------------------------------------------ *)
(** ** encoding/binary, big endian *)

Module BigEndian.

(** [append(b, byte(v>>8), byte(v))] *)
Definition AppendUint16 (b : list byte) (v : Z) : list byte :=
  b ++ [byte_of_Z (Z.shiftr v 8); byte_of_Z v].

(** [append(b, byte(v>>24), byte(v>>16), byte(v>>8), byte(v))] *)
Definition AppendUint32 (b : list byte) (v : Z) : list byte :=
  b ++ [byte_of_Z (Z.shiftr v 24); byte_of_Z (Z.shiftr v 16);
        byte_of_Z (Z.shiftr v 8); byte_of_Z v].

(** [_ = b[1]; uint16(b[1]) | uint16(b[0])<<8] *)
Definition Uint16 (b : list byte) : outcome Z :=
  match b with
  | b0 :: b1 :: _ => Ret (Z.lor (Z_of_byte b1) (Z.shiftl (Z_of_byte b0) 8))
  | _ => Panic IndexOutOfRange
  end.

(** [_ = b[3]; uint32(b[3]) | uint32(b[2])<<8 | uint32(b[1])<<16 | uint32(b[0])<<24] *)
Definition Uint32 (b : list byte) : outcome Z :=
  match b with
  | b0 :: b1 :: b2 :: b3 :: _ =>
      Ret (Z.lor (Z.lor (Z.lor (Z_of_byte b3) (Z.shiftl (Z_of_byte b2) 8))
                        (Z.shiftl (Z_of_byte b1) 16))
                 (Z.shiftl (Z_of_byte b0) 24))
  | _ => Panic IndexOutOfRange
  end.

End BigEndian.

(** [bytes.Compare]: lexicographic, [-1], [0] or [1] *)
Fixpoint lex (a b : list byte) : comparison :=
  match a, b with
  | [], [] => Eq
  | [], _ :: _ => Lt
  | _ :: _, [] => Gt
  | x :: a', y :: b' =>
      match N.compare (Byte.to_N x) (Byte.to_N y) with
      | Eq => lex a' b'
      | c => c
      end
  end.

Definition Compare (a b : list byte) : Z :=
  match lex a b with
  | Lt => -1
  | Eq => 0
  | Gt => 1
  end.

(* ------------------------------------------------------------------ *)
(** ** Constants *)

Definition SizeOfUint16InBytes : Z := 2.
Definition SizeOfUint32InBytes : Z := 4.

(** [math.MaxUint32] *)
Definition Tombstone : Z := 2 ^ 32 - 1.

(* ------------------------------------------------------------------ *)
(** ** Block *)

Module Block.

Record t : Type := mk { data : list byte; offsets : list Z }.

(** The [for _, offset := range b.offsets] loop of [encode] *)
Fixpoint appendOffsets (buf : list byte) (offs : list Z) : list byte :=
  match offs with
  | [] => buf
  | offset :: rest => appendOffsets (BigEndian.AppendUint16 buf offset) rest
  end.

(** [bufSize] is only the capacity [make] reserves; the bytes of the result
    are those appended. *)
Definition encode (b : t) : list byte :=
  let buf := [] ++ data b in
  let buf := appendOffsets buf (offsets b) in
  BigEndian.AppendUint16 buf (Int.uint16 (len (offsets b))).

End Block.

(** The [for i := 0; i < int(offsetCount); i++] loop of
    [decodeBytesToBlock]; [n] counts the iterations left. *)
Fixpoint readOffsets (bytes : list byte) (offsetStartIndex : Z) (n : nat)
    (i : Z) (offsets : list Z) : outcome (list Z) :=
  match n with
  | O => Ret offsets
  | S n' =>
      let index := Int.int (offsetStartIndex + i * SizeOfUint16InBytes) in
      tail <- slice_from bytes index ;;
      v <- BigEndian.Uint16 tail ;;
      readOffsets bytes offsetStartIndex n' (i + 1) (offsets ++ [v])
  end.

Definition decodeBytesToBlock (bytes : list byte) : outcome Block.t :=
  let offsetCountIndex := Int.int (len bytes - SizeOfUint16InBytes) in
  tail <- slice_from bytes offsetCountIndex ;;
  offsetCount <- BigEndian.Uint16 tail ;;
  let offsetStartIndex :=
    Int.int (offsetCountIndex - offsetCount * SizeOfUint16InBytes) in
  offsets <- readOffsets bytes offsetStartIndex (Z.to_nat offsetCount) 0 [] ;;
  data <- slice_to bytes offsetStartIndex ;;
  Ret (Block.mk data offsets).

(* ------------------------------------------------------------------ *)
(** ** BlockBuilder *)

(** The error values of the package; [build] uses [EmptyBlock] only. *)
Inductive error : Type :=
| EmptyBlock.

Module BlockBuilder.

Record t : Type := mk { offsets : list Z; data : list byte; blockSize : Z }.

Definition estimatedSize (b : t) : Z :=
  Int.int (SizeOfUint16InBytes
           + len (offsets b) * SizeOfUint16InBytes
           + len (data b)).

Definition isEmpty (b : t) : bool := len (offsets b) =? 0.

(** [add] mutates its receiver: the result pairs what the call does (a
    value or a panic) with the builder as the call leaves it. *)
Definition add (key : list byte) (value : option (list byte)) (b : t)
    : outcome bool * t :=
  if len key =? 0 then (Panic (Explicit "key must not be empty"), b) else
  let valueLen := match value with Some val => len val | None => 0 end in
  let newSize :=
    Int.int (estimatedSize b + len key + valueLen
             + SizeOfUint16InBytes * 2 + SizeOfUint32InBytes) in
  if (Int.uint newSize >? blockSize b) && negb (isEmpty b) then (Ret false, b)
  else
    let b := mk (offsets b ++ [Int.uint16 (len (data b))]) (data b) (blockSize b) in
    let b := mk (offsets b) (BigEndian.AppendUint16 (data b) (Int.uint16 (len key)))
                (blockSize b) in
    let b := mk (offsets b) (data b ++ key) (blockSize b) in
    let b :=
      if 0 <? valueLen then
        let b := mk (offsets b)
                    (BigEndian.AppendUint32 (data b) (Int.uint32 valueLen))
                    (blockSize b) in
        mk (offsets b) (data b ++ match value with Some val => val | None => [] end)
           (blockSize b)
      else
        mk (offsets b) (BigEndian.AppendUint32 (data b) Tombstone) (blockSize b) in
    (Ret true, b).

(** [build] returns a pair, a pointer to a Block and an error; [None] is
    [nil]. *)
Definition build (b : t) : option Block.t * option error :=
  if isEmpty b then (None, Some EmptyBlock)
  else (Some (Block.mk (data b) (offsets b)), None).

End BlockBuilder.

Definition NewBlockBuilder (blockSize : Z) : BlockBuilder.t :=
  BlockBuilder.mk [] [] blockSize.

(* ------------------------------------------------------------------ *)
(** ** BlockIterator *)

(** The record types the iterator returns, as [block.go] uses them. *)
Module KeyValue.
Record t : Type := mk { key : list byte; value : list byte }.
End KeyValue.

Module ValueDeletable.
Record t : Type := mk { value : list byte; isTombstone : bool }.
End ValueDeletable.

Module KeyValueDeletable.
Record t : Type := mk { key : list byte; valueDel : ValueDeletable.t }.
End KeyValueDeletable.

Module BlockIterator.

Record t : Type := mk { block : Block.t; offsetIndex : Z }.

Definition advance (b : t) : t :=
  mk (block b) (Int.uint (offsetIndex b + 1)).

Definition loadAtCurrentOffset (b : t) : outcome (option KeyValueDeletable.t) :=
  if offsetIndex b >=? Int.uint (len (Block.offsets (block b))) then Ret None
  else
    let data := Block.data (block b) in
    match nth_error (Block.offsets (block b)) (Z.to_nat (offsetIndex b)) with
    | None => Panic IndexOutOfRange
    | Some offset =>
        tail <- slice_from data offset ;;
        keyLen <- BigEndian.Uint16 tail ;;
        let offset := Int.uint16 (offset + SizeOfUint16InBytes) in
        key <- slice data offset (Int.uint16 (offset + keyLen)) ;;
        let offset := Int.uint16 (offset + keyLen) in
        tail <- slice_from data offset ;;
        valueLen <- BigEndian.Uint32 tail ;;
        let offset := Int.uint16 (offset + SizeOfUint32InBytes) in
        if negb (valueLen =? Tombstone) then
          value <- slice data offset (Int.uint32 (Int.uint32 offset + valueLen)) ;;
          Ret (Some (KeyValueDeletable.mk key (ValueDeletable.mk value false)))
        else
          Ret (Some (KeyValueDeletable.mk key (ValueDeletable.mk [] true)))
    end.

Definition NextEntry (b : t) : outcome (option KeyValueDeletable.t) * t :=
  match loadAtCurrentOffset b with
  | Ret None => (Ret None, b)
  | Ret (Some keyValue) => (Ret (Some keyValue), advance b)
  | Panic p => (Panic p, b)
  | Beyond => (Beyond, b)
  end.

(** The [for { ... }] loop of [Next]; every iteration returns or advances
    the iterator, [fuel] bounds the number of iterations. *)
Fixpoint Next (fuel : nat) (b : t) : option (outcome (option KeyValue.t) * t) :=
  match fuel with
  | O => None
  | S fuel' =>
      match NextEntry b with
      | (Ret (Some keyVal), b') =>
          if ValueDeletable.isTombstone (KeyValueDeletable.valueDel keyVal)
          then Next fuel' b'
          else Some (Ret (Some (KeyValue.mk
                                  (KeyValueDeletable.key keyVal)
                                  (ValueDeletable.value
                                     (KeyValueDeletable.valueDel keyVal)))), b')
      | (Ret None, b') => Some (Ret None, b')
      | (Panic p, b') => Some (Panic p, b')
      | (Beyond, b') => Some (Beyond, b')
      end
  end.

End BlockIterator.

(** The [for i, offset := range block.offsets] loop of
    [newBlockIteratorFromKey]: [i] is the index of the head of [offs],
    [index] the value the variable has when the loop is entered. *)
Fixpoint seek (data : list byte) (key : list byte) (offs : list Z)
    (i : Z) (index : Z) : outcome Z :=
  match offs with
  | [] => Ret index
  | offset :: rest =>
      let off := offset in
      tail <- slice_from data off ;;
      keyLen <- BigEndian.Uint16 tail ;;
      let off := Int.uint16 (off + SizeOfUint16InBytes) in
      curKey <- slice data off (Int.uint16 (off + keyLen)) ;;
      if 0 <=? Compare curKey key then Ret i
      else seek data key rest (i + 1) index
  end.

Definition newBlockIteratorFromKey (block : Block.t) (key : list byte)
    : outcome BlockIterator.t :=
  let data := Block.data block in
  let index := len (Block.offsets block) in
  index <- seek data key (Block.offsets block) 0 index ;;
  Ret (BlockIterator.mk block (Int.uint index)).

Definition newBlockIteratorFromFirstKey (block : Block.t) : BlockIterator.t :=
  BlockIterator.mk block 0.

(* ------------------------------------------------------------------ *)
(** ** Views used to state the properties *)

(** A record handed to [add]: a key and an optional value. *)
Abbreviation record := (list byte * option (list byte))%type.

(** Feeding a builder a run of records, each of which [add] accepts
    (returns [true]); [None] as soon as one is refused or panics. *)
Fixpoint add_all (rs : list record) (b : BlockBuilder.t) : option BlockBuilder.t :=
  match rs with
  | [] => Some b
  | (k, v) :: rs' =>
      match BlockBuilder.add k v b with
      | (Ret true, b') => add_all rs' b'
      | _ => None
      end
  end.

(** The block [build] makes of a builder's buffers. *)
Definition block_of (b : BlockBuilder.t) : Block.t :=
  Block.mk (BlockBuilder.data b) (BlockBuilder.offsets b).

(** The length of the value [add] is given, as it computes [valueLen]. *)
Definition valueLen_of (v : option (list byte)) : Z :=
  match v with Some val => len val | None => 0 end.

(** The bytes [add] appends to [data] for a record: the key length, the
    key, then the value length and the value, or the sentinel alone when
    [valueLen] is zero. *)
Definition encode_record (r : record) : list byte :=
  let (k, v) := r in
  BigEndian.AppendUint16 [] (Int.uint16 (len k)) ++ k
  ++ (if 0 <? valueLen_of v
      then BigEndian.AppendUint32 [] (Int.uint32 (valueLen_of v))
           ++ match v with Some val => val | None => [] end
      else BigEndian.AppendUint32 [] Tombstone).

(** The offsets [add] records for a run of records appended to a data
    buffer of [pos] bytes: where each record starts, cut to sixteen bits. *)
Fixpoint offsets_of (rs : list record) (pos : Z) : list Z :=
  match rs with
  | [] => []
  | r :: rs' => Int.uint16 pos :: offsets_of rs' (pos + len (encode_record r))
  end.

(** The size [add] projects for the block with one more record, in the
    terms of the specification: the count field, two bytes per offset with
    the new one, the data with the new record. *)
Definition projected_size (b : BlockBuilder.t) (k : list byte)
    (v : option (list byte)) : Z :=
  2 + 2 * (len (BlockBuilder.offsets b) + 1)
  + (len (BlockBuilder.data b) + 2 + len k + 4 + valueLen_of v).

(** What a record reads back as. *)
Definition stored (r : record) : KeyValueDeletable.t :=
  let (k, v) := r in
  match v with
  | Some val =>
      if 0 <? len val
      then KeyValueDeletable.mk k (ValueDeletable.mk val false)
      else KeyValueDeletable.mk k (ValueDeletable.mk [] true)
  | None => KeyValueDeletable.mk k (ValueDeletable.mk [] true)
  end.

(** The entries of a block: what [loadAtCurrentOffset] decodes at the
    positions [i], [i+1], ... [n] of them; [None] unless every one of them
    decodes to a record. *)
Fixpoint entries_from (blk : Block.t) (n : nat) (i : Z)
    : option (list KeyValueDeletable.t) :=
  match n with
  | O => Some []
  | S n' =>
      match BlockIterator.loadAtCurrentOffset (BlockIterator.mk blk i) with
      | Ret (Some kv) =>
          match entries_from blk n' (i + 1) with
          | Some kvs => Some (kv :: kvs)
          | None => None
          end
      | _ => None
      end
  end.

Definition entries (blk : Block.t) : option (list KeyValueDeletable.t) :=
  entries_from blk (List.length (Block.offsets blk)) 0.

(** The index of the first key that is not below [k], the number of keys
    if there is none. *)
Fixpoint lower_bound (ks : list (list byte)) (k : list byte) : Z :=
  match ks with
  | [] => 0
  | k' :: ks' => if 0 <=? Compare k' k then 0 else 1 + lower_bound ks' k
  end.

(** The first live entry of a run of entries, with the number of entries
    up to and including it. *)
Fixpoint first_live (kvs : list KeyValueDeletable.t) : option (KeyValue.t * Z) :=
  match kvs with
  | [] => None
  | kv :: kvs' =>
      if ValueDeletable.isTombstone (KeyValueDeletable.valueDel kv)
      then match first_live kvs' with
           | Some (r, n) => Some (r, n + 1)
           | None => None
           end
      else Some (KeyValue.mk (KeyValueDeletable.key kv)
                             (ValueDeletable.value (KeyValueDeletable.valueDel kv)), 1)
  end.

(** The count [decodeBytesToBlock] reads off the last two bytes of its
    input, 0 where it reads none. *)
Definition offsetCount_of (bytes : list byte) : Z :=
  match slice_from bytes (len bytes - SizeOfUint16InBytes) with
  | Ret tail =>
      match BigEndian.Uint16 tail with
      | Ret offsetCount => offsetCount
      | _ => 0
      end
  | _ => 0
  end.


(** An entry that is a tombstone. *)
Definition dead (kv : KeyValueDeletable.t) : Prop :=
  ValueDeletable.isTombstone (KeyValueDeletable.valueDel kv) = true.

(** A builder with a budget of a million bytes after 65536 records of a
    one-byte key and no value. *)
Definition tiny : record := ([x01], None).

Definition many_tiny : list record := repeat tiny (Z.to_nat 65536).

Definition overfull : BlockBuilder.t :=
  BlockBuilder.mk (offsets_of many_tiny 0) (flat_map encode_record many_tiny)
                  1000000.

(** The block of the package's tests, with a tombstone in the middle. *)
Definition bs (s : string) : list byte := list_byte_of_string s.

Definition example_records : list record :=
  [(bs "donkey", Some (bs "kong")); (bs "kratos", None);
   (bs "super", Some (bs "mario"))].

Definition example_builder : BlockBuilder.t :=
  Eval vm_compute in
    match add_all example_records (NewBlockBuilder 1024) with
    | Some b => b
    | None => NewBlockBuilder 1024
    end.

Definition example_block : Block.t := block_of example_builder.

Definition example_entries : list KeyValueDeletable.t :=
  map stored example_records.

(* ------------------------------------------------------------------ *)
(** ** Memtable *)

Module Memtable.

(** Modelled from the spec: [memtable.go] is not among the sources, only its
    test file is.  The specification describes the memtable as an ordered
    associative structure from keys to a value or a tombstone, ordered by
    byte-lexicographic key comparison, with an optional last WAL id.  The
    table is kept here as a list of entries in ascending key order; the
    size accounting of [Put] and [Delete] is left out. *)
Record t : Type :=
  mk { table : list (list byte * ValueDeletable.t); lastWalID : option Z }.

(** Modelled from the spec: [NewMemtable] of [memtable.go], an empty table
    with no WAL id. *)
Definition NewMemtable : t := mk [] None.

(** Modelled from the spec: the insert-or-overwrite of the ordered structure
    behind [Put] and [Delete] of [memtable.go]. *)
Fixpoint insert (k : list byte) (v : ValueDeletable.t)
    (l : list (list byte * ValueDeletable.t)) : list (list byte * ValueDeletable.t) :=
  match l with
  | [] => [(k, v)]
  | (k', v') :: l' =>
      match lex k k' with
      | Lt => (k, v) :: (k', v') :: l'
      | Eq => (k, v) :: l'
      | Gt => (k', v') :: insert k v l'
      end
  end.

(** Modelled from the spec: [Put] of [memtable.go], inserts or overwrites. *)
Definition Put (k v : list byte) (m : t) : t :=
  mk (insert k (ValueDeletable.mk v false) (table m)) (lastWalID m).

(** Modelled from the spec: [Delete] of [memtable.go], inserts a tombstone
    marker for the key and does not remove the key from the structure. *)
Definition Delete (k : list byte) (m : t) : t :=
  mk (insert k (ValueDeletable.mk [] true) (table m)) (lastWalID m).

(** Modelled from the spec: the point lookup behind [Get] of [memtable.go]. *)
Fixpoint lookup (k : list byte) (l : list (list byte * ValueDeletable.t))
    : option ValueDeletable.t :=
  match l with
  | [] => None
  | (k', v') :: l' =>
      match lex k k' with
      | Eq => Some v'
      | _ => lookup k l'
      end
  end.

(** Modelled from the spec: [Get] of [memtable.go], none if the key has
    never been written, otherwise the live value or an explicit tombstone
    marker. *)
Definition Get (k : list byte) (m : t) : option ValueDeletable.t :=
  lookup k (table m).

(** Modelled from the spec: the tombstone filter of the iterators of
    [memtable.go]. *)
Fixpoint live (l : list (list byte * ValueDeletable.t)) : list KeyValue.t :=
  match l with
  | [] => []
  | (k, v) :: l' =>
      if ValueDeletable.isTombstone v then live l'
      else KeyValue.mk k (ValueDeletable.value v) :: live l'
  end.

(** Modelled from the spec: [Iter] of [memtable.go], the sequence of pairs
    in ascending key order with tombstones filtered out. *)
Definition Iter (m : t) : list KeyValue.t := live (table m).

(** Modelled from the spec: the seek of [RangeFrom] of [memtable.go], the
    entries from the first stored key that is not below [k]. *)
Fixpoint seek_from (k : list byte) (l : list (list byte * ValueDeletable.t))
    : list (list byte * ValueDeletable.t) :=
  match l with
  | [] => []
  | (k', v') :: l' =>
      if 0 <=? Compare k' k then l else seek_from k l'
  end.

(** Modelled from the spec: [RangeFrom] of [memtable.go], same tombstone
    filtering as [Iter]. *)
Definition RangeFrom (k : list byte) (m : t) : list KeyValue.t :=
  live (seek_from k (table m)).

(** Modelled from the spec: the invariant of the ordered structure of
    [memtable.go], keys strictly ascending. *)
Fixpoint ascending (l : list (list byte * ValueDeletable.t)) : bool :=
  match l with
  | [] => true
  | (k, _) :: l' =>
      match l' with
      | [] => true
      | (k', _) :: _ =>
          match lex k k' with Lt => ascending l' | _ => false end
      end
  end.

End Memtable.

(** The table of [TestMemtableIterDelete] before its [Delete], with a
    second key. *)
Definition example_memtable : Memtable.t :=
  Memtable.Put (bs "abc333") (bs "value3")
    (Memtable.Put (bs "abc111") (bs "value1") Memtable.NewMemtable).


(* ------------------------------------------------------------------ *)
(** ** Bytes and big-endian words *)

Lemma Z_of_byte_range (b : byte) : 0 <= Z_of_byte b < 256.
Proof.
  unfold Z_of_byte. pose proof (Byte.to_N_bounded b) as H.
  change (Byte.to_N b <= 255)%N in H. lia.
Qed.

Lemma Z_of_byte_of_Z (z : Z) : Z_of_byte (byte_of_Z z) = z mod 256.
Proof.
  unfold Z_of_byte, byte_of_Z.
  assert (Hr : 0 <= z mod 256 < 256) by (apply Z.mod_pos_bound; lia).
  destruct (Byte.of_N (Z.to_N (z mod 256))) as [b|] eqn:E.
  - apply Byte.to_of_N in E. rewrite E. lia.
  - apply Byte.of_N_None_iff in E. lia.
Qed.

Lemma lor_shiftl_add (a b n : Z) :
  0 <= n -> 0 <= a < 2 ^ n -> Z.lor a (Z.shiftl b n) = a + b * 2 ^ n.
Proof.
  intros Hn Ha.
  assert (Hland : Z.land a (Z.shiftl b n) = 0).
  { apply Z.bits_inj'. intros m Hm.
    rewrite Z.land_spec, Z.bits_0.
    destruct (Z.ltb_spec m n) as [Hlt | Hge].
    - rewrite (Z.shiftl_spec_low b n m Hlt). apply andb_false_r.
    - rewrite <- (Z.mod_small a (2 ^ n)) by lia.
      rewrite Z.mod_pow2_bits_high by lia. reflexivity. }
  rewrite <- Z.lxor_lor by exact Hland.
  rewrite <- Z.add_nocarry_lxor by exact Hland.
  rewrite Z.shiftl_mul_pow2 by lia. reflexivity.
Qed.

Lemma Uint16_AppendUint16 (v : Z) (rest : list byte) :
  0 <= v < 2 ^ 16 ->
  BigEndian.Uint16 (BigEndian.AppendUint16 [] v ++ rest) = Ret v.
Proof.
  intros Hv. unfold BigEndian.AppendUint16, BigEndian.Uint16. cbn [app].
  rewrite !Z_of_byte_of_Z.
  rewrite lor_shiftl_add by (try apply Z.mod_pos_bound; lia).
  rewrite Z.shiftr_div_pow2 by lia.
  f_equal. change (2 ^ 8) with 256.
  rewrite (Z.mod_small (v / 256)).
  - rewrite (Z.div_mod v 256) at 3 by lia. lia.
  - split; [apply Z.div_pos; lia | apply Z.div_lt_upper_bound; lia].
Qed.

Lemma Uint32_AppendUint32 (v : Z) (rest : list byte) :
  0 <= v < 2 ^ 32 ->
  BigEndian.Uint32 (BigEndian.AppendUint32 [] v ++ rest) = Ret v.
Proof.
  intros Hv. unfold BigEndian.AppendUint32, BigEndian.Uint32. cbn [app].
  rewrite !Z_of_byte_of_Z.
  assert (Hb : forall z, 0 <= z mod 256 < 256) by (intro; apply Z.mod_pos_bound; lia).
  rewrite (lor_shiftl_add _ _ 8) by (try apply Hb; lia).
  rewrite (lor_shiftl_add _ _ 16).
  2: lia.
  2:{ pose proof (Hb v); pose proof (Hb (Z.shiftr v 8)). lia. }
  rewrite (lor_shiftl_add _ _ 24).
  2: lia.
  2:{ pose proof (Hb v); pose proof (Hb (Z.shiftr v 8)); pose proof (Hb (Z.shiftr v 16)). lia. }
  rewrite !Z.shiftr_div_pow2 by lia.
  f_equal.
  change (2 ^ 8) with 256. change (2 ^ 16) with (256 * 256).
  change (2 ^ 24) with (256 * 256 * 256).
  rewrite <- !Z.div_div by lia.
  set (q1 := v / 256). set (q2 := q1 / 256). set (q3 := q2 / 256).
  assert (H1 : v = 256 * q1 + v mod 256) by (apply Z.div_mod; lia).
  assert (H2 : q1 = 256 * q2 + q1 mod 256) by (apply Z.div_mod; lia).
  assert (H3 : q2 = 256 * q3 + q2 mod 256) by (apply Z.div_mod; lia).
  pose proof (Hb v); pose proof (Hb q1); pose proof (Hb q2).
  assert (0 <= q3 < 256).
  { change (2 ^ 32) with (256 * 256 * 256 * 256) in Hv. lia. }
  rewrite (Z.mod_small q3) by lia. lia.
Qed.

(* ------------------------------------------------------------------ *)
(** ** Lengths, machine integers in range, slices *)

Lemma len_nonneg {A : Type} (s : list A) : 0 <= len s.
Proof. unfold len. lia. Qed.

Lemma len_app {A : Type} (s t : list A) : len (s ++ t) = len s + len t.
Proof. unfold len. rewrite length_app. lia. Qed.

Lemma len_cons {A : Type} (x : A) (s : list A) : len (x :: s) = 1 + len s.
Proof. unfold len. cbn [List.length]. lia. Qed.

Lemma len_nil {A : Type} : len (@nil A) = 0.
Proof. reflexivity. Qed.

Lemma to_nat_len {A : Type} (s : list A) : Z.to_nat (len s) = List.length s.
Proof. unfold len. lia. Qed.

Lemma int_small (z : Z) : - 2 ^ 63 <= z <= Int.max_int -> Int.int z = z.
Proof.
  unfold Int.int, Int.max_int. intros H.
  rewrite Z.mod_small by lia. lia.
Qed.

Lemma uint_small (z : Z) : 0 <= z < 2 ^ 64 -> Int.uint z = z.
Proof. intros H. unfold Int.uint. apply Z.mod_small. exact H. Qed.

Lemma uint16_small (z : Z) : 0 <= z < 2 ^ 16 -> Int.uint16 z = z.
Proof. intros H. unfold Int.uint16. apply Z.mod_small. exact H. Qed.

Lemma uint32_small (z : Z) : 0 <= z < 2 ^ 32 -> Int.uint32 z = z.
Proof. intros H. unfold Int.uint32. apply Z.mod_small. exact H. Qed.

Lemma uint16_range (z : Z) : 0 <= Int.uint16 z < 2 ^ 16.
Proof. unfold Int.uint16. apply Z.mod_pos_bound. lia. Qed.

Lemma slice_from_app {A : Type} (pre rest : list A) :
  slice_from (pre ++ rest) (len pre) = Ret rest.
Proof.
  unfold slice_from. rewrite len_app.
  pose proof (len_nonneg pre). pose proof (len_nonneg rest).
  destruct (Z.ltb_spec (len pre) 0); [lia |].
  destruct (Z.ltb_spec (len pre + len rest) (len pre)); [lia |].
  cbn [orb]. rewrite to_nat_len, skipn_app, skipn_all, Nat.sub_diag.
  reflexivity.
Qed.

Lemma slice_to_app {A : Type} (pre rest : list A) :
  slice_to (pre ++ rest) (len pre) = Ret pre.
Proof.
  unfold slice_to. rewrite len_app.
  pose proof (len_nonneg pre). pose proof (len_nonneg rest).
  destruct (Z.ltb_spec (len pre) 0); [lia |].
  destruct (Z.ltb_spec (len pre + len rest) (len pre)); [lia |].
  rewrite to_nat_len, firstn_app, firstn_all, Nat.sub_diag.
  cbn [firstn]. rewrite app_nil_r. reflexivity.
Qed.

Lemma slice_app {A : Type} (pre mid rest : list A) :
  slice (pre ++ mid ++ rest) (len pre) (len pre + len mid) = Ret mid.
Proof.
  unfold slice. rewrite !len_app.
  pose proof (len_nonneg pre). pose proof (len_nonneg mid).
  pose proof (len_nonneg rest).
  destruct (Z.ltb_spec (len pre) 0); [lia |].
  destruct (Z.ltb_spec (len pre + len mid) (len pre)); [lia |].
  destruct (Z.ltb_spec (len pre + (len mid + len rest)) (len pre + len mid)); [lia |].
  cbn [orb].
  replace (len pre + len mid - len pre) with (len mid) by lia.
  rewrite !to_nat_len, skipn_app, skipn_all, Nat.sub_diag.
  cbn [skipn app]. rewrite firstn_app, firstn_all, Nat.sub_diag.
  cbn [firstn]. rewrite app_nil_r. reflexivity.
Qed.

Lemma slice_from_negative {A : Type} (s : list A) (lo : Z) :
  lo < 0 -> slice_from s lo = Panic SliceBounds.
Proof.
  intros H. unfold slice_from.
  destruct (Z.ltb_spec lo 0); [reflexivity | lia].
Qed.

(* ------------------------------------------------------------------ *)
(** ** The wire format of a block *)

Lemma appendOffsets_app (buf : list byte) (offs : list Z) :
  Block.appendOffsets buf offs = buf ++ Block.appendOffsets [] offs.
Proof.
  revert buf. induction offs as [| o offs IH]; intros buf; cbn [Block.appendOffsets].
  - rewrite app_nil_r. reflexivity.
  - rewrite IH. rewrite (IH (BigEndian.AppendUint16 [] o)).
    unfold BigEndian.AppendUint16. rewrite <- app_assoc. reflexivity.
Qed.

Lemma appendOffsets_cons (o : Z) (offs : list Z) :
  Block.appendOffsets [] (o :: offs)
  = BigEndian.AppendUint16 [] o ++ Block.appendOffsets [] offs.
Proof. cbn [Block.appendOffsets]. apply appendOffsets_app. Qed.

Lemma len_appendOffsets (offs : list Z) :
  len (Block.appendOffsets [] offs) = 2 * len offs.
Proof.
  induction offs as [| o offs IH].
  - reflexivity.
  - rewrite appendOffsets_cons, len_app, IH, len_cons.
    unfold BigEndian.AppendUint16. cbn [app]. rewrite !len_cons, len_nil. lia.
Qed.

Lemma encode_layout (b : Block.t) :
  Block.encode b
  = Block.data b ++ Block.appendOffsets [] (Block.offsets b)
    ++ BigEndian.AppendUint16 [] (Int.uint16 (len (Block.offsets b))).
Proof.
  unfold Block.encode. cbn [app].
  rewrite appendOffsets_app. unfold BigEndian.AppendUint16.
  rewrite <- app_assoc. reflexivity.
Qed.

Lemma len_encode (b : Block.t) :
  len (Block.encode b) = len (Block.data b) + 2 * len (Block.offsets b) + 2.
Proof.
  rewrite encode_layout, !len_app, len_appendOffsets.
  unfold BigEndian.AppendUint16. cbn [app]. rewrite !len_cons, len_nil. lia.
Qed.

(** The loop of [decodeBytesToBlock] reads back the offsets [encode] wrote. *)
Lemma readOffsets_appendOffsets (pre post : list byte) (todo : list Z) :
  forall (done acc : list Z),
    Forall (fun o => 0 <= o < 2 ^ 16) todo ->
    len pre + 2 * (len done + len todo) <= Int.max_int ->
    readOffsets
      (pre ++ Block.appendOffsets [] done ++ Block.appendOffsets [] todo ++ post)
      (len pre) (List.length todo) (len done) acc
    = Ret (acc ++ todo).
Proof.
  induction todo as [| o todo IH]; intros done acc Hr Hfit.
  - cbn [readOffsets]. rewrite app_nil_r. reflexivity.
  - cbn [readOffsets List.length].
    inversion Hr as [| ? ? Ho Hr']; subst.
    pose proof (len_nonneg pre). pose proof (len_nonneg done).
    pose proof (len_nonneg todo). rewrite len_cons in Hfit.
    unfold SizeOfUint16InBytes.
    rewrite int_small by (unfold Int.max_int in *; lia).
    replace (len pre + len done * 2)
      with (len (pre ++ Block.appendOffsets [] done))
      by (rewrite len_app, len_appendOffsets; lia).
    rewrite (app_assoc pre), slice_from_app.
    rewrite appendOffsets_cons, <- app_assoc.
    cbn [bind].
    rewrite Uint16_AppendUint16 by exact Ho.
    cbn [bind].
    specialize (IH (done ++ [o]) (acc ++ [o]) Hr').
    rewrite len_app, len_cons, len_nil in IH.
    replace (len done + (1 + 0)) with (len done + 1) in IH by lia.
    rewrite <- app_assoc in IH. cbn [app] in IH.
    rewrite <- IH by lia.
    f_equal. rewrite <- !app_assoc. f_equal.
    assert (Hsnoc : forall l, Block.appendOffsets [] (l ++ [o])
                     = Block.appendOffsets [] l ++ BigEndian.AppendUint16 [] o).
    { induction l as [| x l IHl].
      - cbn [app]. rewrite appendOffsets_cons. cbn [Block.appendOffsets].
        rewrite app_nil_r. reflexivity.
      - cbn [app]. rewrite !appendOffsets_cons, IHl, app_assoc. reflexivity. }
    rewrite Hsnoc, <- app_assoc. reflexivity.
Qed.

Lemma readOffsets_length (bytes : list byte) (start : Z) (n : nat) :
  forall (i : Z) (acc l : list Z),
    readOffsets bytes start n i acc = Ret l ->
    List.length l = (List.length acc + n)%nat.
Proof.
  induction n as [| n IH]; intros i acc l H; cbn [readOffsets] in H.
  - injection H as <-. lia.
  - destruct (slice_from bytes _) as [tl | |]; cbn [bind] in H; try discriminate.
    destruct (BigEndian.Uint16 tl) as [v | |]; cbn [bind] in H; try discriminate.
    apply IH in H. rewrite H, length_app. cbn [List.length]. lia.
Qed.

(** Decoding what [encode] wrote gives the block back, as long as the
    number of offsets fits the two bytes of the count. *)
Lemma decode_encode (b : Block.t) :
  Forall (fun o => 0 <= o < 2 ^ 16) (Block.offsets b) ->
  len (Block.offsets b) < 2 ^ 16 ->
  len (Block.encode b) <= Int.max_int ->
  decodeBytesToBlock (Block.encode b) = Ret b.
Proof.
  intros Hr Hn Hfit. rewrite len_encode in Hfit.
  pose proof (len_nonneg (Block.data b)) as Hd.
  pose proof (len_nonneg (Block.offsets b)) as Ho.
  unfold decodeBytesToBlock, SizeOfUint16InBytes.
  rewrite len_encode.
  rewrite int_small by (unfold Int.max_int in *; lia).
  rewrite encode_layout.
  replace (len (Block.data b) + 2 * len (Block.offsets b) + 2 - 2)
    with (len (Block.data b ++ Block.appendOffsets [] (Block.offsets b)))
    by (rewrite len_app, len_appendOffsets; lia).
  rewrite app_assoc, slice_from_app. cbn [bind].
  rewrite <- (app_nil_r (BigEndian.AppendUint16 [] _)) at 1.
  rewrite Uint16_AppendUint16 by apply uint16_range.
  cbn [bind]. rewrite uint16_small by lia.
  rewrite len_app, len_appendOffsets.
  rewrite int_small by (unfold Int.max_int in *; lia).
  replace (len (Block.data b) + 2 * len (Block.offsets b)
           - len (Block.offsets b) * 2) with (len (Block.data b)) by lia.
  rewrite to_nat_len, <- app_assoc.
  pose proof (readOffsets_appendOffsets (Block.data b)
                (BigEndian.AppendUint16 [] (len (Block.offsets b)))
                (Block.offsets b) [] [] Hr) as Hread.
  cbn [app Block.appendOffsets] in Hread. rewrite len_nil in Hread.
  rewrite Hread by (unfold Int.max_int in *; lia).
  cbn [bind]. rewrite slice_to_app. cbn [bind].
  destruct b; reflexivity.
Qed.

(** Whatever block decoding the encoding of [b] yields, it has as many
    offsets as the count field says: the number of offsets of [b] modulo
    [2 ^ 16]. *)
Lemma decode_encode_count (b b' : Block.t) :
  len (Block.encode b) <= Int.max_int ->
  decodeBytesToBlock (Block.encode b) = Ret b' ->
  len (Block.offsets b') = Int.uint16 (len (Block.offsets b)).
Proof.
  intros Hfit. rewrite len_encode in Hfit.
  pose proof (len_nonneg (Block.data b)) as Hd.
  pose proof (len_nonneg (Block.offsets b)) as Ho.
  unfold decodeBytesToBlock, SizeOfUint16InBytes.
  rewrite len_encode.
  rewrite int_small by (unfold Int.max_int in *; lia).
  rewrite encode_layout.
  replace (len (Block.data b) + 2 * len (Block.offsets b) + 2 - 2)
    with (len (Block.data b ++ Block.appendOffsets [] (Block.offsets b)))
    by (rewrite len_app, len_appendOffsets; lia).
  rewrite app_assoc, slice_from_app. cbn [bind].
  rewrite <- (app_nil_r (BigEndian.AppendUint16 [] _)) at 1.
  rewrite Uint16_AppendUint16 by apply uint16_range.
  cbn [bind]. intros H.
  destruct (readOffsets _ _ _ _ _) as [offs | |] eqn:E; cbn [bind] in H;
    try discriminate.
  destruct (slice_to _ _) as [d | |]; cbn [bind] in H; try discriminate.
  injection H as <-. cbn [Block.offsets].
  apply readOffsets_length in E. cbn [List.length] in E.
  pose proof (uint16_range (len (Block.offsets b))).
  unfold len at 1. rewrite E. lia.
Qed.

(* ------------------------------------------------------------------ *)
(** ** The builder *)

Lemma len_zero_nil {A : Type} (s : list A) : len s = 0 <-> s = [].
Proof.
  split.
  - destruct s; [reflexivity | rewrite len_cons; pose proof (len_nonneg s); lia].
  - intros ->. reflexivity.
Qed.

Lemma isEmpty_nil (b : BlockBuilder.t) :
  BlockBuilder.isEmpty b = true <-> BlockBuilder.offsets b = [].
Proof.
  unfold BlockBuilder.isEmpty. rewrite Z.eqb_eq. apply len_zero_nil.
Qed.

Lemma len_encode_record (k : list byte) (v : option (list byte)) :
  len (encode_record (k, v)) = 2 + len k + 4 + valueLen_of v.
Proof.
  unfold encode_record, BigEndian.AppendUint16, BigEndian.AppendUint32.
  cbn [app]. rewrite !len_cons, len_app.
  destruct (Z.ltb_spec 0 (valueLen_of v)) as [Hpos | Hz].
  - rewrite !len_cons. destruct v as [val |]; cbn [valueLen_of] in *; lia.
  - rewrite !len_cons, len_nil.
    destruct v as [val |]; cbn [valueLen_of] in *;
      [pose proof (len_nonneg val) |]; lia.
Qed.

(** [add], with the appends collected into the record they write. *)
Lemma add_unfold (k : list byte) (v : option (list byte)) (b : BlockBuilder.t) :
  BlockBuilder.add k v b
  = if len k =? 0 then (Panic (Explicit "key must not be empty"), b)
    else if (Int.uint (Int.int (BlockBuilder.estimatedSize b + len k
                                + valueLen_of v + 2 * 2 + 4))
             >? BlockBuilder.blockSize b)
            && negb (BlockBuilder.isEmpty b)
    then (Ret false, b)
    else (Ret true,
          BlockBuilder.mk
            (BlockBuilder.offsets b ++ [Int.uint16 (len (BlockBuilder.data b))])
            (BlockBuilder.data b ++ encode_record (k, v))
            (BlockBuilder.blockSize b)).
Proof.
  unfold BlockBuilder.add, SizeOfUint16InBytes, SizeOfUint32InBytes.
  fold (valueLen_of v).
  destruct (len k =? 0); [reflexivity |].
  destruct (_ && _); [reflexivity |].
  cbn [BlockBuilder.offsets BlockBuilder.data BlockBuilder.blockSize].
  f_equal. unfold encode_record.
  destruct (0 <? valueLen_of v);
    cbn [BlockBuilder.offsets BlockBuilder.data BlockBuilder.blockSize];
    unfold BigEndian.AppendUint16, BigEndian.AppendUint32;
    rewrite <- !app_assoc; reflexivity.
Qed.

Lemma add_all_cons (k : list byte) (v : option (list byte)) (rs : list record)
    (b0 b : BlockBuilder.t) :
  add_all ((k, v) :: rs) b0 = Some b ->
  k <> [] /\
  add_all rs (BlockBuilder.mk
                (BlockBuilder.offsets b0 ++ [Int.uint16 (len (BlockBuilder.data b0))])
                (BlockBuilder.data b0 ++ encode_record (k, v))
                (BlockBuilder.blockSize b0)) = Some b.
Proof.
  cbn [add_all]. rewrite add_unfold.
  destruct (Z.eqb_spec (len k) 0) as [Hk | Hk]; [discriminate |].
  destruct (_ && _); [discriminate |].
  intros H. split; [| exact H].
  intros ->. apply Hk. reflexivity.
Qed.

(** What a run of accepted records leaves in the builder. *)
Lemma add_all_layout (rs : list record) :
  forall (b0 b : BlockBuilder.t),
    add_all rs b0 = Some b ->
    BlockBuilder.data b = BlockBuilder.data b0 ++ flat_map encode_record rs /\
    BlockBuilder.offsets b
    = BlockBuilder.offsets b0 ++ offsets_of rs (len (BlockBuilder.data b0)) /\
    BlockBuilder.blockSize b = BlockBuilder.blockSize b0.
Proof.
  induction rs as [| [k v] rs IH]; intros b0 b H.
  - cbn [add_all] in H. injection H as <-.
    cbn [flat_map offsets_of]. rewrite !app_nil_r. auto.
  - apply add_all_cons in H. destruct H as [_ H].
    apply IH in H. destruct H as (Hd & Ho & Hs).
    cbn [BlockBuilder.data BlockBuilder.offsets BlockBuilder.blockSize] in *.
    cbn [flat_map offsets_of].
    rewrite Hd, Ho, Hs, len_app, <- !app_assoc. auto.
Qed.

Lemma length_offsets_of (rs : list record) :
  forall pos, List.length (offsets_of rs pos) = List.length rs.
Proof.
  induction rs as [| r rs IH]; intros pos; cbn [offsets_of List.length].
  - reflexivity.
  - rewrite IH. reflexivity.
Qed.

Lemma offsets_of_app (l1 l2 : list record) :
  forall pos,
    offsets_of (l1 ++ l2) pos
    = offsets_of l1 pos ++ offsets_of l2 (pos + len (flat_map encode_record l1)).
Proof.
  induction l1 as [| r l1 IH]; intros pos; cbn [app offsets_of flat_map].
  - rewrite len_nil, Z.add_0_r. reflexivity.
  - rewrite IH, len_app, Z.add_assoc. reflexivity.
Qed.

Lemma offsets_of_range (rs : list record) :
  forall pos, Forall (fun o => 0 <= o < 2 ^ 16) (offsets_of rs pos).
Proof.
  induction rs as [| r rs IH]; intros pos; cbn [offsets_of]; constructor.
  - apply uint16_range.
  - apply IH.
Qed.

Lemma add_all_accepts_nonempty (rs : list record) :
  forall (b0 b : BlockBuilder.t),
    add_all rs b0 = Some b -> Forall (fun r => fst r <> []) rs.
Proof.
  induction rs as [| [k v] rs IH]; intros b0 b H; constructor.
  - apply add_all_cons in H. apply H.
  - apply add_all_cons in H. destruct H as [_ H]. exact (IH _ _ H).
Qed.

Lemma len_flat_map_lower (rs : list record) :
  Forall (fun r => fst r <> []) rs ->
  7 * len rs <= len (flat_map encode_record rs).
Proof.
  induction 1 as [| [k v] rs Hk _ IH]; cbn [flat_map].
  - unfold len. cbn [List.length]. lia.
  - rewrite len_app, len_cons, len_encode_record. cbn [fst] in Hk.
    assert (0 < len k).
    { pose proof (len_nonneg k). destruct (Z.eq_dec (len k) 0) as [E |]; [| lia].
      apply len_zero_nil in E. contradiction. }
    assert (0 <= valueLen_of v).
    { destruct v; cbn [valueLen_of]; [apply len_nonneg | lia]. }
    lia.
Qed.


(* ------------------------------------------------------------------ *)
(** ** Reading a record back *)

Lemma slice_at {A : Type} (s pre mid rest : list A) (lo hi : Z) :
  s = pre ++ mid ++ rest -> lo = len pre -> hi = len pre + len mid ->
  slice s lo hi = Ret mid.
Proof. intros -> -> ->. apply slice_app. Qed.

Lemma slice_from_at {A : Type} (s pre rest : list A) (lo : Z) :
  s = pre ++ rest -> lo = len pre -> slice_from s lo = Ret rest.
Proof. intros -> ->. apply slice_from_app. Qed.

Lemma valueLen_of_nonneg (v : option (list byte)) : 0 <= valueLen_of v.
Proof. destruct v; cbn [valueLen_of]; [apply len_nonneg | lia]. Qed.

(** Drop the conversions whose argument is already in range. *)
Ltac in_range :=
  repeat match goal with
    | |- context [Int.uint16 ?z] => rewrite (uint16_small z) by lia
    | |- context [Int.uint32 ?z] => rewrite (uint32_small z) by lia
    | |- context [Int.uint ?z] => rewrite (uint_small z) by lia
    end.

(** Where [offs[i]] is the start of a record that [add] wrote, and the
    data stay below [2 ^ 16] bytes, [loadAtCurrentOffset] reads the record
    back. *)
Lemma load_record (pre post k : list byte) (v : option (list byte))
    (offs : list Z) (i : Z) :
  0 <= i < len offs -> len offs < 2 ^ 64 ->
  nth_error offs (Z.to_nat i) = Some (Int.uint16 (len pre)) ->
  len (pre ++ encode_record (k, v) ++ post) < 2 ^ 16 ->
  BlockIterator.loadAtCurrentOffset
    (BlockIterator.mk (Block.mk (pre ++ encode_record (k, v) ++ post) offs) i)
  = Ret (Some (stored (k, v))).
Proof.
  intros Hi Hn Hnth Hlen.
  rewrite !len_app, len_encode_record in Hlen.
  pose proof (len_nonneg pre) as Hp. pose proof (len_nonneg post) as Hq.
  pose proof (len_nonneg k) as Hk. pose proof (valueLen_of_nonneg v) as Hv.
  unfold BlockIterator.loadAtCurrentOffset.
  cbn [BlockIterator.block BlockIterator.offsetIndex Block.offsets Block.data].
  in_range.
  rewrite Z.geb_leb. destruct (Z.leb_spec (len offs) i) as [Hge | _]; [lia |].
  rewrite Hnth. unfold SizeOfUint16InBytes, SizeOfUint32InBytes.
  in_range.
  rewrite slice_from_app. cbn [bind].
  set (klb := BigEndian.AppendUint16 [] (Int.uint16 (len k))).
  set (vpart := if 0 <? valueLen_of v
                then BigEndian.AppendUint32 [] (Int.uint32 (valueLen_of v))
                     ++ match v with Some val => val | None => [] end
                else BigEndian.AppendUint32 [] Tombstone).
  assert (Henc : encode_record (k, v) = klb ++ k ++ vpart) by reflexivity.
  assert (Hklb : len klb = 2) by reflexivity.
  rewrite Henc, <- !app_assoc.
  unfold klb at 1. rewrite Uint16_AppendUint16 by apply uint16_range.
  cbn [bind]. in_range.
  rewrite (slice_at _ (pre ++ klb) k (vpart ++ post))
    by (rewrite <- ?app_assoc, ?len_app; auto; lia).
  cbn [bind].
  rewrite (slice_from_at _ (pre ++ klb ++ k) (vpart ++ post))
    by (rewrite <- ?app_assoc, ?len_app; auto; lia).
  cbn [bind]. unfold vpart at 1.
  destruct (Z.ltb_spec 0 (valueLen_of v)) as [Hpos | Hzero].
  - destruct v as [val |]; cbn [valueLen_of] in *; [| lia].
    rewrite <- app_assoc.
    rewrite Uint32_AppendUint32 by (unfold Int.uint32; apply Z.mod_pos_bound; lia).
    cbn [bind]. in_range.
    destruct (Z.eqb_spec (len val) Tombstone) as [E | _];
      [unfold Tombstone in E; lia |].
    cbn [negb].
    assert (Hvp : vpart = BigEndian.AppendUint32 [] (Int.uint32 (len val)) ++ val).
    { unfold vpart. destruct (Z.ltb_spec 0 (len val)); [reflexivity | lia]. }
    rewrite Hvp.
    rewrite (slice_at _ (pre ++ klb ++ k ++ BigEndian.AppendUint32 [] (Int.uint32 (len val)))
               val post).
    + cbn [bind]. unfold stored.
      destruct (Z.ltb_spec 0 (len val)); [reflexivity | lia].
    + rewrite <- !app_assoc. reflexivity.
    + rewrite !len_app. change (len (BigEndian.AppendUint32 [] _)) with 4. lia.
    + rewrite !len_app. change (len (BigEndian.AppendUint32 [] _)) with 4. lia.
  - rewrite Uint32_AppendUint32 by (unfold Tombstone; lia).
    cbn [bind]. rewrite Z.eqb_refl. cbn [negb].
    unfold stored. destruct v as [val |]; [| reflexivity].
    cbn [valueLen_of] in Hzero.
    destruct (Z.ltb_spec 0 (len val)); [lia | reflexivity].
Qed.

Lemma load_record_at (d pre post k : list byte) (v : option (list byte))
    (offs : list Z) (i : Z) :
  d = pre ++ encode_record (k, v) ++ post ->
  0 <= i < len offs -> len offs < 2 ^ 64 ->
  nth_error offs (Z.to_nat i) = Some (Int.uint16 (len pre)) ->
  len d < 2 ^ 16 ->
  BlockIterator.loadAtCurrentOffset (BlockIterator.mk (Block.mk d offs) i)
  = Ret (Some (stored (k, v))).
Proof. intros ->. apply load_record. Qed.

Lemma len_offsets_of (rs : list record) (pos : Z) :
  len (offsets_of rs pos) = len rs.
Proof. unfold len. rewrite length_offsets_of. reflexivity. Qed.

Lemma len_flat_map_records (rs : list record) :
  6 * len rs <= len (flat_map encode_record rs).
Proof.
  induction rs as [| [k v] rs IH]; cbn [flat_map].
  - unfold len. cbn [List.length]. lia.
  - rewrite len_app, len_cons, len_encode_record.
    pose proof (len_nonneg k). pose proof (valueLen_of_nonneg v). lia.
Qed.

Lemma built_entries_from (todo : list record) :
  forall (done : list record),
    len (flat_map encode_record (done ++ todo)) < 2 ^ 16 ->
    entries_from
      (Block.mk (flat_map encode_record (done ++ todo))
                (offsets_of (done ++ todo) 0))
      (List.length todo) (len done)
    = Some (map stored todo).
Proof.
  induction todo as [| [k v] todo IH]; intros done Hlen.
  - reflexivity.
  - cbn [entries_from List.length map].
    pose proof (len_flat_map_records (done ++ (k, v) :: todo)) as Hcount.
    pose proof (len_nonneg done) as Hd. pose proof (len_nonneg todo) as Ht.
    rewrite len_app, len_cons in Hcount.
    assert (Hdata : flat_map encode_record (done ++ (k, v) :: todo)
                    = flat_map encode_record done ++ encode_record (k, v)
                      ++ flat_map encode_record todo).
    { rewrite flat_map_app. reflexivity. }
    rewrite (load_record_at _ (flat_map encode_record done)
               (flat_map encode_record todo) k v _ _ Hdata).
    + specialize (IH (done ++ [(k, v)])).
      rewrite <- app_assoc in IH. cbn [app] in IH.
      replace (len (done ++ [(k, v)])) with (len done + 1) in IH
        by (rewrite len_app; reflexivity).
      rewrite IH by exact Hlen. reflexivity.
    + rewrite len_offsets_of, len_app, len_cons. lia.
    + rewrite len_offsets_of, len_app, len_cons.
      assert (2 ^ 16 < 2 ^ 64) by reflexivity. lia.
    + rewrite to_nat_len, offsets_of_app, nth_error_app2
        by (rewrite length_offsets_of; lia).
      rewrite length_offsets_of, Nat.sub_diag. reflexivity.
    + exact Hlen.
Qed.

(** A block the builder made of accepted records, with less than [2 ^ 16]
    bytes of data, decodes entry by entry to the records it was fed. *)
Lemma built_entries (rs : list record) (B : Z) (b : BlockBuilder.t) :
  add_all rs (NewBlockBuilder B) = Some b ->
  len (BlockBuilder.data b) < 2 ^ 16 ->
  entries (block_of b) = Some (map stored rs).
Proof.
  intros Hb Hlen. apply add_all_layout in Hb. destruct Hb as (Hd & Ho & _).
  cbn [NewBlockBuilder BlockBuilder.data BlockBuilder.offsets app] in Hd, Ho.
  unfold entries, block_of. rewrite Hd, Ho in *.
  cbn [Block.offsets]. rewrite length_offsets_of.
  change (len (@nil byte)) with 0.
  exact (built_entries_from rs [] Hlen).
Qed.


(* ------------------------------------------------------------------ *)
(** ** The iterator over a block whose offsets all decode *)

Lemma load_past_end (blk : Block.t) (i : Z) :
  Int.uint (len (Block.offsets blk)) <= i ->
  BlockIterator.loadAtCurrentOffset (BlockIterator.mk blk i) = Ret None.
Proof.
  intros H. unfold BlockIterator.loadAtCurrentOffset.
  cbn [BlockIterator.block BlockIterator.offsetIndex].
  rewrite Z.geb_leb.
  destruct (Z.leb_spec (Int.uint (len (Block.offsets blk))) i); [reflexivity | lia].
Qed.

Lemma load_some_before_end (blk : Block.t) (i : Z) (kv : KeyValueDeletable.t) :
  BlockIterator.loadAtCurrentOffset (BlockIterator.mk blk i) = Ret (Some kv) ->
  i < Int.uint (len (Block.offsets blk)).
Proof.
  unfold BlockIterator.loadAtCurrentOffset.
  cbn [BlockIterator.block BlockIterator.offsetIndex].
  rewrite Z.geb_leb.
  destruct (Z.leb_spec (Int.uint (len (Block.offsets blk))) i) as [Hge | Hlt].
  - discriminate.
  - intros _. exact Hlt.
Qed.

Lemma entries_from_nth (blk : Block.t) (n : nat) :
  forall (i : Z) (kvs : list KeyValueDeletable.t),
    entries_from blk n i = Some kvs ->
    List.length kvs = n /\
    forall (j : nat) (kv : KeyValueDeletable.t),
      nth_error kvs j = Some kv ->
      BlockIterator.loadAtCurrentOffset (BlockIterator.mk blk (i + Z.of_nat j))
      = Ret (Some kv).
Proof.
  induction n as [| n IH]; intros i kvs H; cbn [entries_from] in H.
  - injection H as <-. split; [reflexivity |].
    intros [| j] kv Hj; discriminate.
  - destruct (BlockIterator.loadAtCurrentOffset _) as [[kv0 |] | |] eqn:Hload;
      try discriminate.
    destruct (entries_from blk n (i + 1)) as [rest |] eqn:Hrest; [| discriminate].
    injection H as <-. destruct (IH _ _ Hrest) as [Hlen Hnth].
    split; [cbn [List.length]; rewrite Hlen; reflexivity |].
    intros [| j] kv Hj; cbn [nth_error] in Hj.
    + injection Hj as <-. rewrite Z.add_0_r. exact Hload.
    + replace (i + Z.of_nat (S j)) with (i + 1 + Z.of_nat j) by lia.
      apply Hnth. exact Hj.
Qed.

(** A block all of whose offsets decode has a number of offsets that the
    conversion to [uint] leaves alone, and as many entries. *)
Lemma entries_count (blk : Block.t) (kvs : list KeyValueDeletable.t) :
  entries blk = Some kvs ->
  Int.uint (len (Block.offsets blk)) = len (Block.offsets blk) /\
  len kvs = len (Block.offsets blk).
Proof.
  unfold entries. intros H. apply entries_from_nth in H.
  destruct H as [Hlen Hnth]. split; [| unfold len; rewrite Hlen; reflexivity].
  destruct kvs as [| kv0 kvs'] eqn:Ekvs.
  - cbn [List.length] in Hlen. unfold len. rewrite <- Hlen. reflexivity.
  - rewrite <- Ekvs in *.
    assert (Hlast : exists kv, nth_error kvs (List.length kvs - 1) = Some kv).
    { destruct (nth_error kvs (List.length kvs - 1)) as [kv |] eqn:E.
      - exists kv. reflexivity.
      - apply nth_error_None in E. subst kvs. cbn [List.length] in E. lia. }
    destruct Hlast as [kv Hkv]. apply Hnth in Hkv.
    apply load_some_before_end in Hkv.
    unfold Int.uint in *. unfold len in *. rewrite <- Hlen in *.
    set (n := Z.of_nat (List.length kvs)) in *.
    assert (Hn : 0 < n) by (subst n kvs; cbn [List.length]; lia).
    replace (0 + Z.of_nat (List.length kvs - 1)%nat) with (n - 1) in Hkv
      by (subst n; lia).
    pose proof (Z.div_mod n (2 ^ 64) ltac:(lia)) as Hdm.
    pose proof (Z.mod_pos_bound n (2 ^ 64) ltac:(lia)) as Hb.
    assert (Hq : 0 <= n / 2 ^ 64) by (apply Z.div_pos; lia).
    assert (n / 2 ^ 64 = 0) by nia.
    nia.
Qed.

Lemma entries_load (blk : Block.t) (kvs : list KeyValueDeletable.t) (i : Z) :
  entries blk = Some kvs -> 0 <= i ->
  BlockIterator.loadAtCurrentOffset (BlockIterator.mk blk i)
  = Ret (nth_error kvs (Z.to_nat i)).
Proof.
  intros H Hi. pose proof (entries_count _ _ H) as [Hu Hl].
  destruct (nth_error kvs (Z.to_nat i)) as [kv |] eqn:E.
  - unfold entries in H. apply entries_from_nth in H. destruct H as [_ Hnth].
    apply Hnth in E. rewrite Z.add_0_l, Z2Nat.id in E by exact Hi. exact E.
  - apply nth_error_None in E. apply load_past_end.
    rewrite Hu, <- Hl. unfold len. lia.
Qed.

(** [NextEntry] hands out the entry at the position and steps past it, or
    reports the end and stays. *)
Lemma NextEntry_entries (blk : Block.t) (kvs : list KeyValueDeletable.t) (i : Z) :
  entries blk = Some kvs -> 0 <= i ->
  BlockIterator.NextEntry (BlockIterator.mk blk i)
  = match nth_error kvs (Z.to_nat i) with
    | Some kv => (Ret (Some kv), BlockIterator.mk blk (i + 1))
    | None => (Ret None, BlockIterator.mk blk i)
    end.
Proof.
  intros H Hi. unfold BlockIterator.NextEntry.
  rewrite (entries_load _ _ _ H Hi).
  destruct (nth_error kvs (Z.to_nat i)) as [kv |] eqn:E; [| reflexivity].
  unfold BlockIterator.advance.
  cbn [BlockIterator.block BlockIterator.offsetIndex].
  pose proof (entries_count _ _ H) as [Hu Hl].
  assert (Hlt : (Z.to_nat i < List.length kvs)%nat)
    by (apply nth_error_Some; rewrite E; discriminate).
  assert (Hr : 0 <= len (Block.offsets blk) < 2 ^ 64).
  { rewrite <- Hu. unfold Int.uint. apply Z.mod_pos_bound. lia. }
  rewrite uint_small; [reflexivity |].
  unfold len in *. lia.
Qed.

Lemma skipn_nth_error {A : Type} (l : list A) :
  forall (n : nat),
    skipn n l = match nth_error l n with
                | Some x => x :: skipn (S n) l
                | None => []
                end.
Proof.
  induction l as [| a l IH]; intros [| n]; try reflexivity.
  cbn [nth_error]. rewrite !skipn_cons. apply IH.
Qed.

(** [Next] hands out the first live entry at or after the position and
    steps past it; with none left it reports the end at the offset count. *)
Lemma Next_entries (blk : Block.t) (kvs : list KeyValueDeletable.t) :
  entries blk = Some kvs ->
  forall (fuel : nat) (i : Z),
    0 <= i -> (0 < fuel)%nat ->
    len (Block.offsets blk) - i < Z.of_nat fuel ->
    BlockIterator.Next fuel (BlockIterator.mk blk i)
    = Some match first_live (skipn (Z.to_nat i) kvs) with
           | Some (r, n) => (Ret (Some r), BlockIterator.mk blk (i + n))
           | None =>
               (Ret None,
                BlockIterator.mk blk (Z.max i (len (Block.offsets blk))))
           end.
Proof.
  intros H. pose proof (entries_count _ _ H) as [_ Hl].
  induction fuel as [| fuel IH]; intros i Hi Hpos Hfuel; [lia |].
  cbn [BlockIterator.Next]. rewrite (NextEntry_entries _ _ _ H Hi).
  rewrite (skipn_nth_error kvs (Z.to_nat i)).
  destruct (nth_error kvs (Z.to_nat i)) as [kv |] eqn:E.
  - assert (Hlt : (Z.to_nat i < List.length kvs)%nat)
      by (apply nth_error_Some; rewrite E; discriminate).
    cbn [first_live].
    destruct (ValueDeletable.isTombstone (KeyValueDeletable.valueDel kv)).
    + unfold len in *.
      rewrite IH by lia.
      replace (Z.to_nat (i + 1)) with (S (Z.to_nat i)) by lia.
      destruct (first_live (skipn (S (Z.to_nat i)) kvs)) as [[r n] |].
      * do 3 f_equal. lia.
      * do 3 f_equal. lia.
    + do 3 f_equal. 
  - apply nth_error_None in E. cbn [first_live].
    do 3 f_equal. unfold len in *. lia.
Qed.

(* ------------------------------------------------------------------ *)
(** ** Seeking *)

(** The key [newBlockIteratorFromKey] reads at an offset is the key of the
    entry [loadAtCurrentOffset] decodes there. *)
Lemma load_key (blk : Block.t) (i : Z) (kv : KeyValueDeletable.t) :
  BlockIterator.loadAtCurrentOffset (BlockIterator.mk blk i) = Ret (Some kv) ->
  exists (off : Z) (tail : list byte) (keyLen : Z),
    nth_error (Block.offsets blk) (Z.to_nat i) = Some off /\
    slice_from (Block.data blk) off = Ret tail /\
    BigEndian.Uint16 tail = Ret keyLen /\
    slice (Block.data blk) (Int.uint16 (off + SizeOfUint16InBytes))
          (Int.uint16 (Int.uint16 (off + SizeOfUint16InBytes) + keyLen))
    = Ret (KeyValueDeletable.key kv).
Proof.
  unfold BlockIterator.loadAtCurrentOffset.
  cbn [BlockIterator.block BlockIterator.offsetIndex].
  destruct (i >=? Int.uint (len (Block.offsets blk))); [discriminate |].
  destruct (nth_error (Block.offsets blk) (Z.to_nat i)) as [off |];
    [| discriminate].
  intros H. exists off.
  destruct (slice_from (Block.data blk) off) as [tail | |] eqn:Et;
    cbn [bind] in H; try discriminate.
  exists tail.
  destruct (BigEndian.Uint16 tail) as [keyLen | |] eqn:El;
    cbn [bind] in H; try discriminate.
  exists keyLen.
  destruct (slice (Block.data blk) (Int.uint16 (off + SizeOfUint16InBytes))
              (Int.uint16 (Int.uint16 (off + SizeOfUint16InBytes) + keyLen)))
    as [k | |] eqn:Ek; cbn [bind] in H; try discriminate.
  split; [reflexivity |]. split; [reflexivity |]. split; [reflexivity |].
  f_equal. clear Et El Ek.
  destruct (slice_from (Block.data blk) _) as [tail' | |];
    cbn [bind] in H; try discriminate.
  destruct (BigEndian.Uint32 tail') as [valueLen | |];
    cbn [bind] in H; try discriminate.
  destruct (negb (valueLen =? Tombstone)).
  - destruct (slice (Block.data blk) _ _) as [val | |]; cbn [bind] in H;
      try discriminate.
    injection H as <-. reflexivity.
  - injection H as <-. reflexivity.
Qed.

Lemma seek_entries (blk : Block.t) (k : list byte) (index : Z)
    (rest : list Z) :
  forall (pre : list Z) (kvs : list KeyValueDeletable.t),
    Block.offsets blk = pre ++ rest ->
    entries_from blk (List.length rest) (len pre) = Some kvs ->
    index = len pre + len rest ->
    seek (Block.data blk) k rest (len pre) index
    = Ret (len pre + lower_bound (map KeyValueDeletable.key kvs) k).
Proof.
  induction rest as [| off rest IH]; intros pre kvs Hoffs Hent Hindex.
  - cbn [entries_from List.length] in Hent. injection Hent as <-.
    cbn [seek map lower_bound]. rewrite Hindex, len_nil. reflexivity.
  - cbn [entries_from List.length] in Hent.
    destruct (BlockIterator.loadAtCurrentOffset _) as [[kv |] | |] eqn:Hload;
      try discriminate.
    destruct (entries_from blk _ (len pre + 1)) as [kvs' |] eqn:Hrest;
      [| discriminate].
    injection Hent as <-.
    apply load_key in Hload.
    destruct Hload as (off' & tail & keyLen & Hnth & Htail & HkeyLen & Hkey).
    rewrite Hoffs, to_nat_len, nth_error_app2, Nat.sub_diag in Hnth by lia.
    cbn [nth_error] in Hnth. injection Hnth as <-.
    cbn [seek map lower_bound].
    rewrite Htail. cbn [bind]. rewrite HkeyLen. cbn [bind].
    rewrite Hkey. cbn [bind].
    destruct (0 <=? Compare (KeyValueDeletable.key kv) k).
    + rewrite Z.add_0_r. reflexivity.
    + specialize (IH (pre ++ [off]) kvs').
      rewrite len_app, len_cons, len_nil in IH.
      replace (len pre + (1 + 0)) with (len pre + 1) in IH by lia.
      rewrite IH.
      * f_equal. lia.
      * rewrite <- app_assoc. exact Hoffs.
      * exact Hrest.
      * rewrite Hindex, len_cons. lia.
Qed.

Lemma lower_bound_range (ks : list (list byte)) (k : list byte) :
  0 <= lower_bound ks k <= len ks.
Proof.
  induction ks as [| k' ks IH]; cbn [lower_bound].
  - unfold len. cbn [List.length]. lia.
  - rewrite len_cons. destruct (0 <=? Compare k' k); lia.
Qed.

(** Every key before the lower bound is below [k]. *)
Lemma lower_bound_before (ks : list (list byte)) (k : list byte) :
  forall (j : nat) (k' : list byte),
    Z.of_nat j < lower_bound ks k -> nth_error ks j = Some k' ->
    Compare k' k < 0.
Proof.
  induction ks as [| k0 ks IH]; intros j k' Hj Hnth.
  - destruct j; discriminate.
  - cbn [lower_bound] in Hj.
    destruct (Z.leb_spec 0 (Compare k0 k)) as [Hge | Hlt]; [lia |].
    destruct j as [| j]; cbn [nth_error] in Hnth.
    + injection Hnth as <-. exact Hlt.
    + apply (IH j); [lia | exact Hnth].
Qed.

(** The key at the lower bound, when there is one, is not below [k]. *)
Lemma lower_bound_at (ks : list (list byte)) (k k' : list byte) :
  nth_error ks (Z.to_nat (lower_bound ks k)) = Some k' -> 0 <= Compare k' k.
Proof.
  induction ks as [| k0 ks IH]; cbn [lower_bound].
  - discriminate.
  - destruct (Z.leb_spec 0 (Compare k0 k)) as [Hge | Hlt].
    + cbn. intros H. injection H as <-. exact Hge.
    + pose proof (lower_bound_range ks k).
      replace (Z.to_nat (1 + lower_bound ks k))
        with (S (Z.to_nat (lower_bound ks k))) by lia.
      cbn [nth_error]. exact IH.
Qed.

Lemma lower_bound_all_below (ks : list (list byte)) (k : list byte) :
  (forall k', In k' ks -> Compare k' k < 0) -> lower_bound ks k = len ks.
Proof.
  induction ks as [| k0 ks IH]; intros H; cbn [lower_bound].
  - reflexivity.
  - rewrite len_cons.
    destruct (Z.leb_spec 0 (Compare k0 k)) as [Hge | Hlt].
    + specialize (H k0 (or_introl eq_refl)). lia.
    + rewrite IH; [reflexivity |]. intros k' Hin. apply H. right. exact Hin.
Qed.

Lemma lex_antisym (a : list byte) :
  forall b, lex b a = CompOpp (lex a b).
Proof.
  induction a as [| x a IH]; intros [| y b]; cbn [lex]; try reflexivity.
  rewrite (N.compare_antisym (Byte.to_N x) (Byte.to_N y)).
  destruct (Byte.to_N x ?= Byte.to_N y)%N; cbn [CompOpp]; auto.
Qed.

Lemma Compare_antisym (a b : list byte) : Compare b a = - Compare a b.
Proof.
  unfold Compare. rewrite (lex_antisym a b).
  destruct (lex a b); reflexivity.
Qed.

Lemma lower_bound_all_above (ks : list (list byte)) (k : list byte) :
  (forall k', In k' ks -> Compare k k' < 0) -> lower_bound ks k = 0.
Proof.
  destruct ks as [| k0 ks]; intros H; cbn [lower_bound]; [reflexivity |].
  specialize (H k0 (or_introl eq_refl)).
  rewrite (Compare_antisym k k0).
  destruct (Z.leb_spec 0 (- Compare k k0)); [reflexivity | lia].
Qed.

Lemma newBlockIteratorFromKey_entries (blk : Block.t)
    (kvs : list KeyValueDeletable.t) (k : list byte) :
  entries blk = Some kvs ->
  newBlockIteratorFromKey blk k
  = Ret (BlockIterator.mk blk (lower_bound (map KeyValueDeletable.key kvs) k)).
Proof.
  intros H. pose proof (entries_count _ _ H) as [Hu Hl].
  unfold newBlockIteratorFromKey.
  pose proof (seek_entries blk k (len (Block.offsets blk)) (Block.offsets blk)
                [] kvs eq_refl) as Hseek.
  rewrite len_nil in Hseek. rewrite Hseek; [| exact H | lia].
  cbn [bind]. rewrite Z.add_0_l.
  pose proof (lower_bound_range (map KeyValueDeletable.key kvs) k) as Hr.
  unfold len in Hr. rewrite length_map in Hr. fold (len kvs) in Hr.
  assert (Hb : 0 <= len (Block.offsets blk) < 2 ^ 64).
  { rewrite <- Hu. unfold Int.uint. apply Z.mod_pos_bound. lia. }
  rewrite uint_small by lia. reflexivity.
Qed.


(* ------------------------------------------------------------------ *)
(** ** The order on keys *)

Lemma to_N_inj (x y : byte) : Byte.to_N x = Byte.to_N y -> x = y.
Proof.
  intros H. pose proof (Byte.of_to_N x) as Hx.
  rewrite H, Byte.of_to_N in Hx. injection Hx as ->. reflexivity.
Qed.

Lemma lex_refl (a : list byte) : lex a a = Eq.
Proof.
  induction a as [| x a IH]; cbn [lex]; [reflexivity |].
  rewrite N.compare_refl. exact IH.
Qed.

Lemma lex_eq (a : list byte) : forall b, lex a b = Eq -> a = b.
Proof.
  induction a as [| x a IH]; intros [| y b] H; cbn [lex] in H;
    try discriminate; [reflexivity |].
  destruct (Byte.to_N x ?= Byte.to_N y)%N eqn:E; try discriminate.
  apply N.compare_eq_iff, to_N_inj in E. subst y.
  f_equal. apply IH. exact H.
Qed.

Lemma lex_trans (a : list byte) :
  forall b c, lex a b = Lt -> lex b c = Lt -> lex a c = Lt.
Proof.
  induction a as [| x a IH]; intros [| y b] [| z c] Hab Hbc;
    cbn [lex] in *; try discriminate; try reflexivity.
  destruct (Byte.to_N x ?= Byte.to_N y)%N eqn:Exy; try discriminate;
    destruct (Byte.to_N y ?= Byte.to_N z)%N eqn:Eyz; try discriminate.
  - apply N.compare_eq_iff in Exy. apply N.compare_eq_iff in Eyz.
    rewrite Exy, Eyz, N.compare_refl. eapply IH; eassumption.
  - apply N.compare_eq_iff in Exy. rewrite Exy, Eyz. reflexivity.
  - apply N.compare_eq_iff in Eyz. rewrite <- Eyz, Exy. reflexivity.
  - apply N.compare_lt_iff in Exy. apply N.compare_lt_iff in Eyz.
    assert (E : (Byte.to_N x ?= Byte.to_N z)%N = Lt)
      by (apply N.compare_lt_iff; eapply N.lt_trans; eassumption).
    rewrite E. reflexivity.
Qed.

(* ------------------------------------------------------------------ *)
(** ** The memtable *)

Lemma insert_insert (k : list byte) (x y : ValueDeletable.t)
    (l : list (list byte * ValueDeletable.t)) :
  Memtable.insert k y (Memtable.insert k x l) = Memtable.insert k y l.
Proof.
  induction l as [| [k0 v0] l IH]; cbn [Memtable.insert].
  - rewrite lex_refl. reflexivity.
  - destruct (lex k k0) eqn:E; cbn [Memtable.insert].
    + rewrite lex_refl. reflexivity.
    + rewrite lex_refl. reflexivity.
    + rewrite E, IH. reflexivity.
Qed.

Lemma lookup_insert (k : list byte) (x : ValueDeletable.t)
    (l : list (list byte * ValueDeletable.t)) :
  Memtable.lookup k (Memtable.insert k x l) = Some x.
Proof.
  induction l as [| [k0 v0] l IH]; cbn [Memtable.insert Memtable.lookup].
  - rewrite lex_refl. reflexivity.
  - destruct (lex k k0) eqn:E; cbn [Memtable.lookup].
    + rewrite lex_refl. reflexivity.
    + rewrite lex_refl. reflexivity.
    + rewrite E. exact IH.
Qed.

Lemma ascending_tail (e : list byte * ValueDeletable.t)
    (l : list (list byte * ValueDeletable.t)) :
  Memtable.ascending (e :: l) = true -> Memtable.ascending l = true.
Proof.
  destruct e as [k0 v0]. destruct l as [| [k1 v1] l]; [reflexivity |].
  cbn [Memtable.ascending]. destruct (lex k0 k1); try discriminate. auto.
Qed.

(** In an ascending table every key after the first is above it. *)
Lemma ascending_above (l : list (list byte * ValueDeletable.t)) :
  forall (k0 : list byte) (v0 : ValueDeletable.t),
    Memtable.ascending ((k0, v0) :: l) = true ->
    forall k' x', In (k', x') l -> lex k0 k' = Lt.
Proof.
  induction l as [| [k1 v1] l IH]; intros k0 v0 Hasc k' x' Hin.
  - destruct Hin.
  - assert (H01 : lex k0 k1 = Lt).
    { cbn [Memtable.ascending] in Hasc. destruct (lex k0 k1); try discriminate.
      reflexivity. }
    destruct Hin as [Heq | Hin].
    + injection Heq as <- <-. exact H01.
    + apply (lex_trans k0 k1 k' H01).
      apply (IH k1 v1 (ascending_tail _ _ Hasc) k' x' Hin).
Qed.

(** After an insert into an ascending table, the key inserted is bound to
    the value inserted and to nothing else. *)
Lemma insert_unique (k : list byte) (x : ValueDeletable.t)
    (l : list (list byte * ValueDeletable.t)) :
  Memtable.ascending l = true ->
  forall x', In (k, x') (Memtable.insert k x l) -> x' = x.
Proof.
  induction l as [| [k0 v0] l IH]; intros Hasc x' Hin;
    cbn [Memtable.insert] in Hin.
  - destruct Hin as [Heq | []]. injection Heq as <-. reflexivity.
  - pose proof (ascending_above l k0 v0 Hasc) as Habove.
    destruct (lex k k0) eqn:E.
    + apply lex_eq in E. subst k0.
      destruct Hin as [Heq | Hin]; [injection Heq as <-; reflexivity |].
      apply Habove in Hin. rewrite lex_refl in Hin. discriminate.
    + destruct Hin as [Heq | [Heq | Hin]].
      * injection Heq as <-. reflexivity.
      * injection Heq as <- <-. rewrite lex_refl in E. discriminate.
      * apply Habove in Hin.
        pose proof (lex_trans k k0 k E Hin) as Hkk.
        rewrite lex_refl in Hkk. discriminate.
    + destruct Hin as [Heq | Hin].
      * injection Heq as <- <-. rewrite lex_refl in E. discriminate.
      * apply IH; [exact (ascending_tail _ _ Hasc) | exact Hin].
Qed.

Lemma insert_ascending (k : list byte) (x : ValueDeletable.t)
    (l : list (list byte * ValueDeletable.t)) :
  Memtable.ascending l = true ->
  Memtable.ascending (Memtable.insert k x l) = true.
Proof.
  induction l as [| [k0 v0] l IH]; intros Hasc; cbn [Memtable.insert].
  - reflexivity.
  - destruct (lex k k0) eqn:E.
    + apply lex_eq in E. subst k0. exact Hasc.
    + cbn [Memtable.ascending] in *. rewrite E. exact Hasc.
    + specialize (IH (ascending_tail _ _ Hasc)).
      assert (H0k : lex k0 k = Lt).
      { rewrite (lex_antisym k k0), E. reflexivity. }
      destruct l as [| [k1 v1] l]; cbn [Memtable.insert] in *.
      * cbn [Memtable.ascending]. rewrite H0k. reflexivity.
      * assert (H01 : lex k0 k1 = Lt).
        { cbn [Memtable.ascending] in Hasc.
          destruct (lex k0 k1); try discriminate. reflexivity. }
        destruct (lex k k1);
          change (Memtable.ascending ((k0, v0) :: ?e :: ?r))
            with (match lex k0 (fst e) with
                  | Lt => Memtable.ascending (e :: r)
                  | _ => false
                  end);
          cbn [fst]; rewrite ?H0k, ?H01; exact IH.
Qed.

Lemma live_in (l : list (list byte * ValueDeletable.t)) (kv : KeyValue.t) :
  In kv (Memtable.live l) ->
  exists x, In (KeyValue.key kv, x) l /\ ValueDeletable.isTombstone x = false.
Proof.
  induction l as [| [k0 v0] l IH]; cbn [Memtable.live]; intros Hin.
  - destruct Hin.
  - destruct (ValueDeletable.isTombstone v0) eqn:Et.
    + destruct (IH Hin) as (x & Hx & Hl). exists x. split; [right |]; assumption.
    + destruct Hin as [<- | Hin].
      * exists v0. cbn [KeyValue.key]. split; [left; reflexivity | exact Et].
      * destruct (IH Hin) as (x & Hx & Hl). exists x.
        split; [right |]; assumption.
Qed.

Lemma seek_from_in (k : list byte) (l : list (list byte * ValueDeletable.t))
    (e : list byte * ValueDeletable.t) :
  In e (Memtable.seek_from k l) -> In e l.
Proof.
  induction l as [| [k0 v0] l IH]; cbn [Memtable.seek_from]; intros Hin.
  - destruct Hin.
  - destruct (0 <=? Compare k0 k); [exact Hin | right; apply IH; exact Hin].
Qed.


(* ------------------------------------------------------------------ *)
(** ** Runs of accepted records *)

Lemma add_all_app (l1 l2 : list record) :
  forall (b : BlockBuilder.t),
    add_all (l1 ++ l2) b
    = match add_all l1 b with
      | Some b' => add_all l2 b'
      | None => None
      end.
Proof.
  induction l1 as [| [k v] l1 IH]; intros b; cbn [app add_all].
  - reflexivity.
  - destruct (BlockBuilder.add k v b) as [[[|] | |] b']; try reflexivity.
    apply IH.
Qed.

Lemma add_all_built (rs : list record) (B : Z) (b : BlockBuilder.t) :
  add_all rs (NewBlockBuilder B) = Some b ->
  b = BlockBuilder.mk (offsets_of rs 0) (flat_map encode_record rs) B.
Proof.
  intros H. apply add_all_layout in H. destruct H as (Hd & Ho & Hs).
  cbn [NewBlockBuilder BlockBuilder.data BlockBuilder.offsets
       BlockBuilder.blockSize app] in *.
  change (len (@nil byte)) with 0 in Ho.
  destruct b as [o d s]. cbn in *. subst. reflexivity.
Qed.

Lemma offsets_of_nil_iff (rs : list record) (pos : Z) :
  offsets_of rs pos = [] <-> rs = [].
Proof.
  destruct rs; cbn [offsets_of]; split; intros H;
    try reflexivity; discriminate.
Qed.

Lemma len_flat_map_tiny (n : nat) :
  len (flat_map encode_record (repeat tiny n)) = 7 * Z.of_nat n.
Proof.
  induction n as [| n IH]; cbn [repeat flat_map].
  - reflexivity.
  - rewrite len_app, IH. change (len (encode_record tiny)) with 7. lia.
Qed.

Lemma len_repeat {A : Type} (x : A) (n : nat) : len (repeat x n) = Z.of_nat n.
Proof. unfold len. rewrite repeat_length. reflexivity. Qed.

(** A budget of a million bytes accepts run after run of tiny records as
    long as the builder holds at most 65536 of them. *)
Lemma add_all_tiny (n : nat) :
  forall (b0 : BlockBuilder.t),
    BlockBuilder.blockSize b0 = 1000000 ->
    len (BlockBuilder.data b0) = 7 * len (BlockBuilder.offsets b0) ->
    len (BlockBuilder.offsets b0) + Z.of_nat n <= 65536 ->
    exists b, add_all (repeat tiny n) b0 = Some b.
Proof.
  induction n as [| n IH]; intros b0 Hs Hd Hn; cbn [repeat add_all].
  - exists b0. reflexivity.
  - unfold tiny at 1. rewrite add_unfold.
    change (len [x01]) with 1. cbn [Z.eqb valueLen_of].
    pose proof (len_nonneg (BlockBuilder.offsets b0)) as Ho.
    unfold BlockBuilder.estimatedSize, SizeOfUint16InBytes.
    rewrite Hd, Hs.
    rewrite (int_small (2 + _ * 2 + _)) by (unfold Int.max_int; lia).
    rewrite int_small by (unfold Int.max_int; lia).
    rewrite uint_small by lia.
    rewrite Z.gtb_ltb.
    destruct (Z.ltb_spec 1000000
                (2 + len (BlockBuilder.offsets b0) * 2
                 + 7 * len (BlockBuilder.offsets b0) + 1 + 0 + 2 * 2 + 4));
      [lia |].
    cbn [andb]. apply IH.
    + reflexivity.
    + cbn [BlockBuilder.data BlockBuilder.offsets].
      rewrite !len_app, len_cons, len_nil, Hd.
      change (len (encode_record ([x01], None))) with 7. lia.
    + cbn [BlockBuilder.offsets]. rewrite len_app, len_cons, len_nil. lia.
Qed.

Lemma overfull_built :
  add_all many_tiny (NewBlockBuilder 1000000) = Some overfull.
Proof.
  assert (Hn : len (BlockBuilder.offsets (NewBlockBuilder 1000000))
               + Z.of_nat (Z.to_nat 65536) <= 65536).
  { cbn [NewBlockBuilder BlockBuilder.offsets]. rewrite len_nil. lia. }
  destruct (add_all_tiny (Z.to_nat 65536) (NewBlockBuilder 1000000)
              eq_refl eq_refl Hn) as [b Hb].
  fold many_tiny in Hb. rewrite Hb. f_equal.
  apply add_all_built in Hb. exact Hb.
Qed.

Lemma build_nonempty (b : BlockBuilder.t) :
  BlockBuilder.offsets b <> [] ->
  BlockBuilder.build b = (Some (block_of b), None).
Proof.
  intros H. unfold BlockBuilder.build.
  destruct (BlockBuilder.isEmpty b) eqn:E; [| reflexivity].
  apply isEmpty_nil in E. contradiction.
Qed.

(* ------------------------------------------------------------------ *)
(** ** The round trip of a block *)

Lemma overfull_count : len (BlockBuilder.offsets overfull) = 65536.
Proof.
  unfold overfull. cbn [BlockBuilder.offsets].
  rewrite len_offsets_of. unfold many_tiny. rewrite len_repeat. lia.
Qed.

Lemma many_tiny_nonempty : many_tiny <> [].
Proof.
  intros H. apply (f_equal (@len _)) in H.
  unfold many_tiny in H. rewrite len_repeat, len_nil in H. lia.
Qed.

Lemma block_of_offsets (b : BlockBuilder.t) :
  Block.offsets (block_of b) = BlockBuilder.offsets b.
Proof. reflexivity. Qed.

Lemma block_of_data (b : BlockBuilder.t) :
  Block.data (block_of b) = BlockBuilder.data b.
Proof. reflexivity. Qed.

Lemma overfull_data : len (BlockBuilder.data overfull) = 7 * 65536.
Proof.
  unfold overfull. cbn [BlockBuilder.data].
  unfold many_tiny. rewrite len_flat_map_tiny. lia.
Qed.

Lemma overfull_encode_fits :
  len (Block.encode (block_of overfull)) <= Int.max_int.
Proof.
  rewrite len_encode, block_of_offsets, block_of_data.
  rewrite overfull_count, overfull_data. unfold Int.max_int. lia.
Qed.

Lemma overfull_decode :
  decodeBytesToBlock (Block.encode (block_of overfull))
  <> Ret (block_of overfull).
Proof.
  intros H. apply decode_encode_count in H; [| exact overfull_encode_fits].
  rewrite block_of_offsets, overfull_count in H.
  vm_compute in H. discriminate.
Qed.

(** C1, as stated, fails: a builder with a budget of a million bytes accepts
    65536 records of a one-byte key and no value, [build] makes a block of
    them, and decoding the encoding of that block does not give the block
    back, since the count field holds the number of offsets modulo
    [2 ^ 16]. *)
Lemma roundtrip_fails_at_65536_records :
  add_all many_tiny (NewBlockBuilder 1000000) = Some overfull /\
  many_tiny <> [] /\
  BlockBuilder.build overfull = (Some (block_of overfull), None) /\
  decodeBytesToBlock (Block.encode (block_of overfull))
  <> Ret (block_of overfull).
Proof.
  split; [exact overfull_built |].
  split; [exact many_tiny_nonempty |].
  split; [| exact overfull_decode].
  apply build_nonempty. intros H.
  pose proof overfull_count as Hlen. rewrite H, len_nil in Hlen. lia.
Qed.

(** C1, amended: for every block that [build] makes of a builder that
    accepted at least one and fewer than [2 ^ 16] records, and whose
    encoding has a length that fits [int], decoding the encoding gives a
    block with the same data and the same offsets. *)
Theorem roundtrip_below_65536_records (rs : list record) (B : Z)
    (b : BlockBuilder.t) :
  add_all rs (NewBlockBuilder B) = Some b ->
  rs <> [] ->
  len rs < 2 ^ 16 ->
  len (Block.encode (block_of b)) <= Int.max_int ->
  BlockBuilder.build b = (Some (block_of b), None) /\
  decodeBytesToBlock (Block.encode (block_of b)) = Ret (block_of b).
Proof.
  intros Hb Hne Hn Hfit. pose proof (add_all_built _ _ _ Hb) as ->.
  split.
  - apply build_nonempty. cbn [BlockBuilder.offsets].
    rewrite offsets_of_nil_iff. exact Hne.
  - apply decode_encode.
    + apply offsets_of_range.
    + unfold block_of. cbn [Block.offsets BlockBuilder.offsets].
      rewrite len_offsets_of. exact Hn.
    + exact Hfit.
Qed.

Lemma roundtrip_below_65536_records_witness :
  BlockBuilder.build example_builder = (Some (block_of example_builder), None) /\
  decodeBytesToBlock (Block.encode (block_of example_builder))
  = Ret (block_of example_builder).
Proof.
  apply (roundtrip_below_65536_records example_records 1024 example_builder).
  - reflexivity.
  - discriminate.
  - reflexivity.
  - vm_compute. discriminate.
Defined.

(* ------------------------------------------------------------------ *)
(** ** Input too short to decode *)

(** C8: on every byte slice shorter than the two bytes of the count,
    [decodeBytesToBlock] panics on the slice expression that takes the
    count, with the runtime's slice-bounds error; it returns no block. *)
Theorem decode_short_panics (bytes : list byte) :
  len bytes < 2 -> decodeBytesToBlock bytes = Panic SliceBounds.
Proof.
  intros H. pose proof (len_nonneg bytes).
  unfold decodeBytesToBlock, SizeOfUint16InBytes.
  rewrite int_small by (unfold Int.max_int; lia).
  rewrite slice_from_negative by lia. reflexivity.
Qed.

Lemma decode_short_panics_witness :
  decodeBytesToBlock [x07] = Panic SliceBounds.
Proof. apply (decode_short_panics [x07]). reflexivity. Defined.

(* ------------------------------------------------------------------ *)
(** ** The size estimate *)

(** C10: for every builder that holds at least one record, and whose sizes
    fit [int], [estimatedSize] is the length of the encoding of the block
    [build] makes, that is [2 + 2 * len(offsets) + len(data)]. *)
Theorem estimatedSize_exact (b : BlockBuilder.t) :
  BlockBuilder.offsets b <> [] ->
  2 + 2 * len (BlockBuilder.offsets b) + len (BlockBuilder.data b)
  <= Int.max_int ->
  BlockBuilder.build b = (Some (block_of b), None) /\
  BlockBuilder.estimatedSize b = len (Block.encode (block_of b)) /\
  BlockBuilder.estimatedSize b
  = 2 + 2 * len (BlockBuilder.offsets b) + len (BlockBuilder.data b).
Proof.
  intros Hne Hfit.
  pose proof (len_nonneg (BlockBuilder.offsets b)).
  pose proof (len_nonneg (BlockBuilder.data b)).
  split; [apply build_nonempty; exact Hne |].
  rewrite len_encode. unfold block_of. cbn [Block.data Block.offsets].
  unfold BlockBuilder.estimatedSize, SizeOfUint16InBytes.
  rewrite int_small by (unfold Int.max_int in *; lia). lia.
Qed.

Lemma estimatedSize_exact_witness :
  BlockBuilder.build example_builder = (Some (block_of example_builder), None) /\
  BlockBuilder.estimatedSize example_builder
  = len (Block.encode (block_of example_builder)) /\
  BlockBuilder.estimatedSize example_builder
  = 2 + 2 * len (BlockBuilder.offsets example_builder)
    + len (BlockBuilder.data example_builder).
Proof.
  apply (estimatedSize_exact example_builder).
  - discriminate.
  - vm_compute. discriminate.
Defined.

(* ------------------------------------------------------------------ *)
(** ** [build] *)

(** C5: for every builder reached from [NewBlockBuilder] by accepted
    records, [build] returns the [EmptyBlock] error (and no block) exactly
    when no record was accepted, which is exactly when the offsets are
    empty; otherwise it returns, with no error, the block of the builder's
    data and offsets. *)
Theorem build_empty_iff (rs : list record) (B : Z) (b : BlockBuilder.t) :
  add_all rs (NewBlockBuilder B) = Some b ->
  (BlockBuilder.build b = (None, Some EmptyBlock) <-> rs = []) /\
  (BlockBuilder.build b = (None, Some EmptyBlock)
   <-> BlockBuilder.offsets b = []) /\
  (rs <> [] ->
   BlockBuilder.build b
   = (Some (Block.mk (BlockBuilder.data b) (BlockBuilder.offsets b)), None)).
Proof.
  intros Hb.
  assert (Hoffs : BlockBuilder.offsets b = [] <-> rs = []).
  { rewrite (add_all_built _ _ _ Hb). cbn [BlockBuilder.offsets].
    apply offsets_of_nil_iff. }
  assert (Hbuild : BlockBuilder.build b = (None, Some EmptyBlock)
                   <-> BlockBuilder.offsets b = []).
  { unfold BlockBuilder.build.
    destruct (BlockBuilder.isEmpty b) eqn:E.
    - apply isEmpty_nil in E. split; auto.
    - split; [discriminate |]. intros H. apply isEmpty_nil in H. congruence. }
  split; [rewrite Hbuild; exact Hoffs |].
  split; [exact Hbuild |].
  intros Hne. apply build_nonempty. rewrite Hoffs. exact Hne.
Qed.

Lemma build_empty_iff_witness :
  (BlockBuilder.build example_builder = (None, Some EmptyBlock)
   <-> example_records = []) /\
  (BlockBuilder.build example_builder = (None, Some EmptyBlock)
   <-> BlockBuilder.offsets example_builder = []) /\
  (example_records <> [] ->
   BlockBuilder.build example_builder
   = (Some (Block.mk (BlockBuilder.data example_builder)
                     (BlockBuilder.offsets example_builder)), None)).
Proof.
  apply (build_empty_iff example_records 1024 example_builder). reflexivity.
Defined.

(* ------------------------------------------------------------------ *)
(** ** [add] *)

(** C6: for every builder and every optional value, [add] with an empty key
    panics with the message of the source, and the builder is as it was. *)
Theorem add_empty_key_panics (v : option (list byte)) (b : BlockBuilder.t) :
  BlockBuilder.add [] v b = (Panic (Explicit "key must not be empty"), b).
Proof. reflexivity. Qed.

(** C2: for every builder, every non-empty key and every optional value,
    with sizes that fit [int]: if the builder holds a record and the
    projected size of the block with the new record exceeds the budget,
    [add] returns [false] and leaves the builder as it was; otherwise, and
    so always on an empty builder, it returns [true], appends the offset of
    the record and the bytes of the record, and the data grow by the bytes
    the projection counted. *)
Theorem add_budget (b : BlockBuilder.t) (k : list byte)
    (v : option (list byte)) :
  k <> [] ->
  projected_size b k v <= Int.max_int ->
  (BlockBuilder.offsets b <> [] /\
   projected_size b k v > BlockBuilder.blockSize b ->
   BlockBuilder.add k v b = (Ret false, b)) /\
  (~ (BlockBuilder.offsets b <> [] /\
      projected_size b k v > BlockBuilder.blockSize b) ->
   BlockBuilder.add k v b
   = (Ret true,
      BlockBuilder.mk
        (BlockBuilder.offsets b ++ [Int.uint16 (len (BlockBuilder.data b))])
        (BlockBuilder.data b ++ encode_record (k, v))
        (BlockBuilder.blockSize b)) /\
   len (encode_record (k, v)) = 2 + len k + 4 + valueLen_of v) /\
  (BlockBuilder.offsets b = [] ->
   fst (BlockBuilder.add k v b) = Ret true).
Proof.
  intros Hk Hfit.
  pose proof (len_nonneg (BlockBuilder.offsets b)) as Ho.
  pose proof (len_nonneg (BlockBuilder.data b)) as Hd.
  pose proof (len_nonneg k) as Hkl.
  pose proof (valueLen_of_nonneg v) as Hv.
  assert (Hkey : (len k =? 0) = false).
  { apply Z.eqb_neq. intros E. apply len_zero_nil in E. contradiction. }
  assert (Hsize :
    Int.uint (Int.int (BlockBuilder.estimatedSize b + len k + valueLen_of v
                       + 2 * 2 + 4))
    = projected_size b k v).
  { unfold projected_size in *.
    unfold BlockBuilder.estimatedSize, SizeOfUint16InBytes.
    rewrite (int_small (2 + _ * 2 + _)) by (unfold Int.max_int in *; lia).
    rewrite int_small by (unfold Int.max_int in *; lia).
    rewrite uint_small by (unfold Int.max_int in *; lia). lia. }
  rewrite add_unfold, Hkey, Hsize, Z.gtb_ltb.
  assert (Hempty : BlockBuilder.isEmpty b = true <-> BlockBuilder.offsets b = [])
    by apply isEmpty_nil.
  split; [| split].
  - intros [Hne Hover].
    destruct (Z.ltb_spec (BlockBuilder.blockSize b) (projected_size b k v));
      [| lia].
    destruct (BlockBuilder.isEmpty b); [| reflexivity].
    exfalso. apply Hne, Hempty. reflexivity.
  - intros Hnot. split; [| apply len_encode_record].
    destruct (Z.ltb_spec (BlockBuilder.blockSize b) (projected_size b k v));
      [| reflexivity].
    destruct (BlockBuilder.isEmpty b) eqn:E; [reflexivity |].
    exfalso. apply Hnot. split; [| lia].
    intros H0. apply Hempty in H0. congruence.
  - intros Hnil. apply Hempty in Hnil. rewrite Hnil, andb_false_r.
    reflexivity.
Qed.

Lemma add_budget_witness :
  (BlockBuilder.offsets example_builder <> [] /\
   projected_size example_builder (bs "zelda") (Some (bs "link"))
   > BlockBuilder.blockSize example_builder ->
   BlockBuilder.add (bs "zelda") (Some (bs "link")) example_builder
   = (Ret false, example_builder)) /\
  (~ (BlockBuilder.offsets example_builder <> [] /\
      projected_size example_builder (bs "zelda") (Some (bs "link"))
      > BlockBuilder.blockSize example_builder) ->
   BlockBuilder.add (bs "zelda") (Some (bs "link")) example_builder
   = (Ret true,
      BlockBuilder.mk
        (BlockBuilder.offsets example_builder
         ++ [Int.uint16 (len (BlockBuilder.data example_builder))])
        (BlockBuilder.data example_builder
         ++ encode_record (bs "zelda", Some (bs "link")))
        (BlockBuilder.blockSize example_builder)) /\
   len (encode_record (bs "zelda", Some (bs "link")))
   = 2 + len (bs "zelda") + 4 + valueLen_of (Some (bs "link"))) /\
  (BlockBuilder.offsets example_builder = [] ->
   fst (BlockBuilder.add (bs "zelda") (Some (bs "link")) example_builder)
   = Ret true).
Proof.
  apply (add_budget example_builder (bs "zelda") (Some (bs "link"))).
  - discriminate.
  - vm_compute. discriminate.
Defined.


(* ------------------------------------------------------------------ *)
(** ** Iteration *)

Lemma load_tombstone_empty (b : BlockIterator.t) (kv : KeyValueDeletable.t) :
  BlockIterator.loadAtCurrentOffset b = Ret (Some kv) ->
  ValueDeletable.isTombstone (KeyValueDeletable.valueDel kv) = true ->
  ValueDeletable.value (KeyValueDeletable.valueDel kv) = [].
Proof.
  unfold BlockIterator.loadAtCurrentOffset.
  destruct (_ >=? _); [discriminate |].
  destruct (nth_error _ _); [| discriminate].
  destruct (slice_from _ _); cbn [bind]; try discriminate.
  destruct (BigEndian.Uint16 _); cbn [bind]; try discriminate.
  destruct (slice _ _ _); cbn [bind]; try discriminate.
  destruct (slice_from _ _); cbn [bind]; try discriminate.
  destruct (BigEndian.Uint32 _); cbn [bind]; try discriminate.
  destruct (negb _).
  - destruct (slice _ _ _); cbn [bind]; try discriminate.
    intros H. inversion H. cbn. discriminate.
  - intros H. inversion H. reflexivity.
Qed.

Lemma first_live_dead_prefix (pre : list KeyValueDeletable.t)
    (kv : KeyValueDeletable.t) (rest : list KeyValueDeletable.t) :
  Forall dead pre ->
  ValueDeletable.isTombstone (KeyValueDeletable.valueDel kv) = false ->
  first_live (pre ++ kv :: rest)
  = Some (KeyValue.mk (KeyValueDeletable.key kv)
            (ValueDeletable.value (KeyValueDeletable.valueDel kv)),
          len pre + 1).
Proof.
  intros Hpre Hkv. induction Hpre as [| x pre Hx Hpre IH].
  - cbn [app first_live]. rewrite Hkv. reflexivity.
  - cbn [app first_live]. unfold dead in Hx. rewrite Hx, IH, len_cons.
    f_equal. f_equal. lia.
Qed.

Lemma first_live_all_dead (l : list KeyValueDeletable.t) :
  Forall dead l -> first_live l = None.
Proof.
  induction 1 as [| x l Hx Hl IH]; [reflexivity |].
  cbn [first_live]. unfold dead in Hx. rewrite Hx, IH. reflexivity.
Qed.

Lemma nth_error_none_len {A : Type} (l : list A) (i : Z) :
  0 <= i -> (nth_error l (Z.to_nat i) = None <-> len l <= i).
Proof.
  intros Hi. rewrite nth_error_None. unfold len. lia.
Qed.

(** C4: for every block whose offsets all decode to records, and every
    position [i]: [NextEntry] returns the record at position [i] and moves
    to [i + 1], a tombstone among them, with [isTombstone] set and an empty
    value; it returns none exactly when [i] has reached the number of
    offsets.  [Next] skips the tombstones that follow the position and
    returns the first live record as a (key, value) pair, leaving the
    iterator behind it; when only tombstones remain it returns none. *)
Theorem iterator_entries (blk : Block.t) (kvs : list KeyValueDeletable.t)
    (i : Z) :
  entries blk = Some kvs ->
  0 <= i ->
  (forall kv,
     nth_error kvs (Z.to_nat i) = Some kv ->
     BlockIterator.NextEntry (BlockIterator.mk blk i)
     = (Ret (Some kv), BlockIterator.mk blk (i + 1)) /\
     (ValueDeletable.isTombstone (KeyValueDeletable.valueDel kv) = true ->
      ValueDeletable.value (KeyValueDeletable.valueDel kv) = [])) /\
  (fst (BlockIterator.NextEntry (BlockIterator.mk blk i)) = Ret None
   <-> len (Block.offsets blk) <= i) /\
  (forall fuel : nat,
     Z.max 0 (len (Block.offsets blk) - i) < Z.of_nat fuel ->
     (forall pre kv rest,
        skipn (Z.to_nat i) kvs = pre ++ kv :: rest ->
        Forall dead pre ->
        ValueDeletable.isTombstone (KeyValueDeletable.valueDel kv) = false ->
        BlockIterator.Next fuel (BlockIterator.mk blk i)
        = Some (Ret (Some (KeyValue.mk (KeyValueDeletable.key kv)
                             (ValueDeletable.value
                                (KeyValueDeletable.valueDel kv)))),
                BlockIterator.mk blk (i + len pre + 1))) /\
     (Forall dead (skipn (Z.to_nat i) kvs) ->
      BlockIterator.Next fuel (BlockIterator.mk blk i)
      = Some (Ret None,
              BlockIterator.mk blk (Z.max i (len (Block.offsets blk)))))).
Proof.
  intros He Hi.
  pose proof (NextEntry_entries blk kvs i He Hi) as HN.
  pose proof (entries_count blk kvs He) as [_ Hcount].
  split; [| split].
  - intros kv Hkv. rewrite Hkv in HN. split; [exact HN |].
    apply (load_tombstone_empty (BlockIterator.mk blk i)).
    rewrite (entries_load blk kvs i He Hi), Hkv. reflexivity.
  - rewrite <- Hcount, <- (nth_error_none_len kvs i Hi). rewrite HN.
    destruct (nth_error kvs (Z.to_nat i)); cbn [fst];
      split; intros H; try reflexivity; discriminate.
  - intros fuel Hfuel.
    assert (HNext := Next_entries blk kvs He fuel i Hi).
    rewrite HNext by lia. split.
    + intros pre kv rest Hskip Hpre Hkv.
      rewrite Hskip, (first_live_dead_prefix pre kv rest Hpre Hkv).
      do 3 f_equal. lia.
    + intros Hall. rewrite (first_live_all_dead _ Hall). reflexivity.
Qed.

Lemma iterator_entries_witness :
  BlockIterator.NextEntry (BlockIterator.mk example_block 1)
  = (Ret (Some (KeyValueDeletable.mk (bs "kratos") (ValueDeletable.mk [] true))),
     BlockIterator.mk example_block 2) /\
  BlockIterator.Next 3 (BlockIterator.mk example_block 1)
  = Some (Ret (Some (KeyValue.mk (bs "super") (bs "mario"))),
          BlockIterator.mk example_block 3).
Proof.
  destruct (iterator_entries example_block example_entries 1)
    as [H1 [_ H3]]; [reflexivity | lia |].
  split.
  - apply (H1 (KeyValueDeletable.mk (bs "kratos") (ValueDeletable.mk [] true))).
    reflexivity.
  - destruct (H3 3%nat) as [Hlive _]; [vm_compute; reflexivity |].
    apply (Hlive
             [KeyValueDeletable.mk (bs "kratos") (ValueDeletable.mk [] true)]
             (KeyValueDeletable.mk (bs "super")
                (ValueDeletable.mk (bs "mario") false))
             []).
    + reflexivity.
    + constructor; [reflexivity | constructor].
    + reflexivity.
Defined.

(* ------------------------------------------------------------------ *)
(** ** Seeking *)

Lemma In_nth_error_map {A B : Type} (f : A -> B) (l : list A) (y : B) :
  In y (map f l) -> exists x, In x l /\ f x = y.
Proof. intros H. apply in_map_iff in H. destruct H as [x [E I]]. eauto. Qed.

(** C3: for every block whose offsets all decode to records and every
    target key [k], [newBlockIteratorFromKey] returns an iterator on the
    block at an index [i] within the offsets such that every key before
    [i] is below [k] and the key at [i], if there is one, is not below
    [k].  If every stored key is below [k], [i] is the number of offsets
    and [Next] returns none at once; if [k] is below every stored key,
    [i] is 0. *)
Theorem seek_lower_bound (blk : Block.t) (kvs : list KeyValueDeletable.t)
    (k : list byte) :
  entries blk = Some kvs ->
  exists i : Z,
    newBlockIteratorFromKey blk k = Ret (BlockIterator.mk blk i) /\
    0 <= i <= len (Block.offsets blk) /\
    (forall (j : nat) kv,
       Z.of_nat j < i -> nth_error kvs j = Some kv ->
       Compare (KeyValueDeletable.key kv) k < 0) /\
    (forall kv,
       nth_error kvs (Z.to_nat i) = Some kv ->
       0 <= Compare (KeyValueDeletable.key kv) k) /\
    ((forall kv, In kv kvs -> Compare (KeyValueDeletable.key kv) k < 0) ->
     i = len (Block.offsets blk) /\
     forall fuel : nat,
       (0 < fuel)%nat ->
       BlockIterator.Next fuel (BlockIterator.mk blk i)
       = Some (Ret None, BlockIterator.mk blk i)) /\
    ((forall kv, In kv kvs -> Compare k (KeyValueDeletable.key kv) < 0) ->
     i = 0).
Proof.
  intros He.
  pose proof (entries_count blk kvs He) as [_ Hcount].
  set (ks := map KeyValueDeletable.key kvs).
  assert (Hks : len ks = len (Block.offsets blk)).
  { rewrite <- Hcount. unfold ks, len. rewrite length_map. reflexivity. }
  exists (lower_bound ks k).
  split; [apply newBlockIteratorFromKey_entries; exact He |].
  split; [rewrite <- Hks; apply lower_bound_range |].
  split; [| split; [| split]].
  - intros j kv Hj Hkv. apply (lower_bound_before ks k j); [exact Hj |].
    unfold ks. rewrite nth_error_map, Hkv. reflexivity.
  - intros kv Hkv. apply (lower_bound_at ks k).
    unfold ks in *. rewrite nth_error_map, Hkv. reflexivity.
  - intros Hbelow.
    assert (Hi : lower_bound ks k = len (Block.offsets blk)).
    { rewrite <- Hks. apply lower_bound_all_below. intros k' Hk'.
      apply In_nth_error_map in Hk'. destruct Hk' as [kv [Hin <-]].
      apply Hbelow, Hin. }
    split; [exact Hi |]. intros fuel Hfuel.
    pose proof (len_nonneg (Block.offsets blk)) as Hn.
    rewrite (Next_entries blk kvs He fuel) by lia.
    rewrite Hi, skipn_all2 by (rewrite <- Hcount; unfold len; lia).
    cbn [first_live]. rewrite Z.max_id. reflexivity.
  - intros Habove. apply lower_bound_all_above. intros k' Hk'.
    apply In_nth_error_map in Hk'. destruct Hk' as [kv [Hin <-]].
    apply Habove, Hin.
Qed.

Lemma seek_lower_bound_witness :
  exists i : Z,
    newBlockIteratorFromKey example_block (bs "ka")
    = Ret (BlockIterator.mk example_block i) /\
    0 <= i <= len (Block.offsets example_block) /\
    (forall (j : nat) kv,
       Z.of_nat j < i -> nth_error example_entries j = Some kv ->
       Compare (KeyValueDeletable.key kv) (bs "ka") < 0) /\
    (forall kv,
       nth_error example_entries (Z.to_nat i) = Some kv ->
       0 <= Compare (KeyValueDeletable.key kv) (bs "ka")) /\
    ((forall kv, In kv example_entries ->
                 Compare (KeyValueDeletable.key kv) (bs "ka") < 0) ->
     i = len (Block.offsets example_block) /\
     forall fuel : nat,
       (0 < fuel)%nat ->
       BlockIterator.Next fuel (BlockIterator.mk example_block i)
       = Some (Ret None, BlockIterator.mk example_block i)) /\
    ((forall kv, In kv example_entries ->
                 Compare (bs "ka") (KeyValueDeletable.key kv) < 0) ->
     i = 0).
Proof.
  apply (seek_lower_bound example_block example_entries (bs "ka")).
  reflexivity.
Defined.

(* ------------------------------------------------------------------ *)
(** ** A present but empty value *)

Lemma add_empty_value (k : list byte) (b : BlockBuilder.t) :
  BlockBuilder.add k (Some []) b = BlockBuilder.add k None b.
Proof. reflexivity. Qed.

Lemma skipn_app_exact {A : Type} (l1 l2 : list A) :
  skipn (List.length l1) (l1 ++ l2) = l2.
Proof.
  rewrite skipn_app, skipn_all, Nat.sub_diag. reflexivity.
Qed.

Lemma nth_error_app_exact {A : Type} (l1 : list A) (x : A) (l2 : list A) :
  nth_error (l1 ++ x :: l2) (List.length l1) = Some x.
Proof.
  rewrite nth_error_app2 by lia. rewrite Nat.sub_diag. reflexivity.
Qed.

(** C9: [add] with a present value of length zero does what [add] with no
    value does, the same result and the same builder, for every key and
    every builder.  When such an [add] is accepted after a run of accepted
    records, and the data stay within the reach of the 16-bit offsets, the
    record decodes as a tombstone ([isTombstone] set, empty value):
    [NextEntry] returns it, and [Next] skips it. *)
Theorem empty_value_is_tombstone (k : list byte) (rs : list record) (B : Z)
    (b0 b' : BlockBuilder.t) :
  add_all rs (NewBlockBuilder B) = Some b0 ->
  BlockBuilder.add k (Some []) b0 = (Ret true, b') ->
  len (BlockBuilder.data b') < 2 ^ 16 ->
  (forall b, BlockBuilder.add k (Some []) b = BlockBuilder.add k None b) /\
  BlockIterator.NextEntry (BlockIterator.mk (block_of b') (len rs))
  = (Ret (Some (KeyValueDeletable.mk k (ValueDeletable.mk [] true))),
     BlockIterator.mk (block_of b') (len rs + 1)) /\
  (forall fuel : nat,
     (1 < fuel)%nat ->
     BlockIterator.Next fuel (BlockIterator.mk (block_of b') (len rs))
     = Some (Ret None, BlockIterator.mk (block_of b') (len rs + 1))).
Proof.
  intros Hb0 Hadd Hdata.
  split; [intros b; reflexivity |].
  assert (Hall : add_all (rs ++ [(k, Some [])]) (NewBlockBuilder B) = Some b').
  { rewrite add_all_app, Hb0. cbn [add_all]. rewrite Hadd. reflexivity. }
  pose proof (built_entries _ _ _ Hall Hdata) as He.
  rewrite map_app in He. cbn [map stored] in He.
  change (0 <? len (@nil byte)) with false in He. cbv iota in He.
  pose proof (len_nonneg rs) as Hrs.
  assert (Hn : Z.to_nat (len rs) = List.length (map stored rs)).
  { unfold len. rewrite length_map. lia. }
  pose proof (entries_count _ _ He) as [_ Hcount].
  rewrite len_app, len_cons, len_nil in Hcount.
  assert (Hlen : len (map stored rs) = len rs).
  { unfold len. rewrite length_map. reflexivity. }
  split.
  - rewrite (NextEntry_entries _ _ _ He Hrs), Hn, nth_error_app_exact.
    reflexivity.
  - intros fuel Hfuel.
    rewrite (Next_entries _ _ He fuel) by lia.
    rewrite Hn, skipn_app_exact. cbn [first_live ValueDeletable.isTombstone
      KeyValueDeletable.valueDel].
    do 3 f_equal. lia.
Qed.

Lemma empty_value_is_tombstone_witness :
  (forall b, BlockBuilder.add (bs "zelda") (Some []) b
             = BlockBuilder.add (bs "zelda") None b) /\
  BlockIterator.NextEntry
    (BlockIterator.mk
       (block_of (snd (BlockBuilder.add (bs "zelda") (Some []) example_builder)))
       (len example_records))
  = (Ret (Some (KeyValueDeletable.mk (bs "zelda") (ValueDeletable.mk [] true))),
     BlockIterator.mk
       (block_of (snd (BlockBuilder.add (bs "zelda") (Some []) example_builder)))
       (len example_records + 1)) /\
  (forall fuel : nat,
     (1 < fuel)%nat ->
     BlockIterator.Next fuel
       (BlockIterator.mk
          (block_of (snd (BlockBuilder.add (bs "zelda") (Some []) example_builder)))
          (len example_records))
     = Some (Ret None,
             BlockIterator.mk
               (block_of (snd (BlockBuilder.add (bs "zelda") (Some [])
                                 example_builder)))
               (len example_records + 1))).
Proof.
  apply (empty_value_is_tombstone (bs "zelda") example_records 1024
           example_builder).
  - reflexivity.
  - reflexivity.
  - vm_compute. reflexivity.
Defined.

(* ------------------------------------------------------------------ *)
(** ** Memtable *)

(** C7: for every memtable with its keys in ascending order, every key [k]
    and every value [v], after [Put k v] and then [Delete k], [Get k]
    returns an entry that is present and marked as a tombstone, and no pair
    that [Iter] or [RangeFrom], from any start key, produces has the key
    [k]. *)
Theorem delete_shadows (m : Memtable.t) (k v : list byte) :
  Memtable.ascending (Memtable.table m) = true ->
  Memtable.Get k (Memtable.Delete k (Memtable.Put k v m))
  = Some (ValueDeletable.mk [] true) /\
  (forall kv,
     In kv (Memtable.Iter (Memtable.Delete k (Memtable.Put k v m))) ->
     KeyValue.key kv <> k) /\
  (forall start kv,
     In kv (Memtable.RangeFrom start (Memtable.Delete k (Memtable.Put k v m))) ->
     KeyValue.key kv <> k).
Proof.
  intros Hasc.
  unfold Memtable.Get, Memtable.Iter, Memtable.RangeFrom, Memtable.Delete,
    Memtable.Put.
  cbn [Memtable.table]. rewrite insert_insert.
  split; [apply lookup_insert |].
  assert (Hno : forall x,
            In (k, x) (Memtable.insert k (ValueDeletable.mk [] true)
                         (Memtable.table m)) ->
            ValueDeletable.isTombstone x = true).
  { intros x Hx. apply (insert_unique _ _ _ Hasc) in Hx. subst x.
    reflexivity. }
  split.
  - intros kv Hin Hk. apply live_in in Hin. destruct Hin as [x [Hx Hlive]].
    rewrite Hk in Hx. apply Hno in Hx. congruence.
  - intros start kv Hin Hk. apply live_in in Hin.
    destruct Hin as [x [Hx Hlive]]. apply seek_from_in in Hx.
    rewrite Hk in Hx. apply Hno in Hx. congruence.
Qed.

Lemma delete_shadows_witness :
  Memtable.Get (bs "abc333")
    (Memtable.Delete (bs "abc333")
       (Memtable.Put (bs "abc333") (bs "value3") example_memtable))
  = Some (ValueDeletable.mk [] true) /\
  (forall kv,
     In kv (Memtable.Iter
              (Memtable.Delete (bs "abc333")
                 (Memtable.Put (bs "abc333") (bs "value3") example_memtable))) ->
     KeyValue.key kv <> bs "abc333") /\
  (forall start kv,
     In kv (Memtable.RangeFrom start
              (Memtable.Delete (bs "abc333")
                 (Memtable.Put (bs "abc333") (bs "value3") example_memtable))) ->
     KeyValue.key kv <> bs "abc333").
Proof.
  apply (delete_shadows example_memtable (bs "abc333") (bs "value3")).
  reflexivity.
Defined.


(* ------------------------------------------------------------------ *)
(** ** Decoding arbitrary bytes *)

Lemma byte_of_Z_of_byte (b : byte) : byte_of_Z (Z_of_byte b) = b.
Proof.
  unfold byte_of_Z. pose proof (Z_of_byte_range b) as Hr.
  rewrite Z.mod_small by lia. unfold Z_of_byte. rewrite N2Z.id.
  rewrite Byte.of_to_N. reflexivity.
Qed.

Lemma byte_of_Z_mod (z : Z) : byte_of_Z (z mod 256) = byte_of_Z z.
Proof. unfold byte_of_Z. rewrite Z.mod_mod by lia. reflexivity. Qed.

(** Any two bytes are the big-endian encoding of a 16-bit number. *)
Lemma two_bytes_uint16 (hi lo : byte) :
  exists v, 0 <= v < 2 ^ 16 /\ BigEndian.AppendUint16 [] v = [hi; lo].
Proof.
  pose proof (Z_of_byte_range hi) as Hh. pose proof (Z_of_byte_range lo) as Hl.
  exists (Z_of_byte lo + Z_of_byte hi * 256). split; [lia |].
  unfold BigEndian.AppendUint16. cbn [app]. f_equal; [| f_equal].
  - rewrite Z.shiftr_div_pow2 by lia. change (2 ^ 8) with 256.
    rewrite Z.div_add by lia. rewrite Z.div_small by lia.
    apply byte_of_Z_of_byte.
  - rewrite <- byte_of_Z_mod. rewrite Z.mod_add by lia.
    rewrite Z.mod_small by lia. apply byte_of_Z_of_byte.
Qed.

(** A byte string of even length is a run of encoded offsets. *)
Lemma bytes_are_offsets (n : nat) :
  forall l : list byte,
    List.length l = (2 * n)%nat ->
    exists offs,
      List.length offs = n /\
      Forall (fun o => 0 <= o < 2 ^ 16) offs /\
      Block.appendOffsets [] offs = l.
Proof.
  induction n as [| n IH]; intros l Hl.
  - destruct l; [| discriminate]. exists []. repeat split. constructor.
  - destruct l as [| hi [| lo tl]]; try (cbn in Hl; lia).
    destruct (IH tl) as [offs [Hn [Hr Ho]]]; [cbn in Hl; lia |].
    destruct (two_bytes_uint16 hi lo) as [v [Hv Hb]].
    exists (v :: offs). split; [cbn; lia |]. split; [constructor; assumption |].
    rewrite appendOffsets_cons, Hb, Ho. reflexivity.
Qed.

(** Input of at least two bytes ends in a count. *)
Lemma bytes_end_in_count (bytes : list byte) :
  2 <= len bytes ->
  exists body c,
    0 <= c < 2 ^ 16 /\ bytes = body ++ BigEndian.AppendUint16 [] c.
Proof.
  intros H. unfold len in H.
  set (n := (List.length bytes - 2)%nat).
  assert (Hs : List.length (skipn n bytes) = 2%nat)
    by (rewrite length_skipn; unfold n; lia).
  destruct (skipn n bytes) as [| hi [| lo [| x tl]]] eqn:E; try discriminate.
  destruct (two_bytes_uint16 hi lo) as [c [Hc Hb]].
  exists (firstn n bytes), c. split; [exact Hc |].
  rewrite Hb, <- E. symmetry. apply firstn_skipn.
Qed.

Lemma offsetCount_of_app (body : list byte) (c : Z) :
  0 <= c < 2 ^ 16 ->
  offsetCount_of (body ++ BigEndian.AppendUint16 [] c) = c.
Proof.
  intros Hc. unfold offsetCount_of, SizeOfUint16InBytes.
  replace (len (body ++ BigEndian.AppendUint16 [] c) - 2) with (len body)
    by (rewrite len_app; unfold BigEndian.AppendUint16, len; cbn; lia).
  rewrite slice_from_app.
  rewrite <- (app_nil_r (BigEndian.AppendUint16 [] c)).
  rewrite Uint16_AppendUint16 by exact Hc. reflexivity.
Qed.

Lemma len_AppendUint16 (c : Z) : len (BigEndian.AppendUint16 [] c) = 2.
Proof. reflexivity. Qed.

(** Input that is long enough for the offsets its count announces is the
    encoding of a block. *)
Lemma bytes_are_encoding (bytes : list byte) :
  2 + 2 * offsetCount_of bytes <= len bytes ->
  2 <= len bytes ->
  exists b,
    bytes = Block.encode b /\
    Forall (fun o => 0 <= o < 2 ^ 16) (Block.offsets b) /\
    len (Block.offsets b) = offsetCount_of bytes /\
    len (Block.offsets b) < 2 ^ 16.
Proof.
  intros Hlen H2.
  destruct (bytes_end_in_count bytes H2) as [body [c [Hc ->]]].
  rewrite offsetCount_of_app in * by exact Hc.
  rewrite len_app, len_AppendUint16 in Hlen.
  pose proof (len_nonneg body) as Hb. unfold len in Hlen, Hb.
  set (m := (List.length body - 2 * Z.to_nat c)%nat).
  destruct (bytes_are_offsets (Z.to_nat c) (skipn m body)) as [offs [Hn [Hr Ho]]].
  { rewrite length_skipn. unfold m. lia. }
  exists (Block.mk (firstn m body) offs). cbn [Block.offsets].
  assert (Hoffs : len offs = c) by (unfold len; lia).
  split; [| split; [exact Hr | split; [exact Hoffs | lia]]].
  rewrite encode_layout. cbn [Block.data Block.offsets].
  rewrite Hoffs, uint16_small by exact Hc.
  rewrite Ho, app_assoc, firstn_skipn. reflexivity.
Qed.

Lemma decode_below_two (bytes : list byte) :
  len bytes < 2 -> decodeBytesToBlock bytes = Panic SliceBounds.
Proof.
  intros H. pose proof (len_nonneg bytes).
  unfold decodeBytesToBlock, SizeOfUint16InBytes.
  rewrite int_small by (unfold Int.max_int; lia).
  rewrite slice_from_negative by lia. reflexivity.
Qed.

Lemma decode_truncated (bytes : list byte) :
  2 <= len bytes <= Int.max_int ->
  len bytes < 2 + 2 * offsetCount_of bytes ->
  decodeBytesToBlock bytes = Panic SliceBounds.
Proof.
  intros [H2 Hfit] Hshort.
  destruct (bytes_end_in_count bytes H2) as [body [c [Hc ->]]].
  rewrite offsetCount_of_app in Hshort by exact Hc.
  rewrite len_app, len_AppendUint16 in Hshort, Hfit.
  pose proof (len_nonneg body) as Hb.
  unfold decodeBytesToBlock, SizeOfUint16InBytes.
  rewrite len_app, len_AppendUint16.
  rewrite int_small by (unfold Int.max_int in *; lia).
  replace (len body + 2 - 2) with (len body) by lia.
  rewrite slice_from_app. cbn [bind].
  rewrite <- (app_nil_r (BigEndian.AppendUint16 [] c)) at 1.
  rewrite Uint16_AppendUint16 by exact Hc. cbn [bind].
  rewrite int_small by (unfold Int.max_int in *; lia).
  destruct (Z.to_nat c) as [| n] eqn:En; [lia |].
  cbn [readOffsets]. unfold SizeOfUint16InBytes.
  rewrite int_small by (unfold Int.max_int in *; lia).
  rewrite slice_from_negative by lia. reflexivity.
Qed.

(** X1: for every block (built or not) whose offsets are 16-bit values and
    number fewer than [2 ^ 16], with an encoding whose length fits [int],
    decoding the encoding gives the block back; the offsets need not point
    at records. *)
Theorem decode_encode_any_block (b : Block.t) :
  Forall (fun o => 0 <= o < 2 ^ 16) (Block.offsets b) ->
  len (Block.offsets b) < 2 ^ 16 ->
  len (Block.encode b) <= Int.max_int ->
  decodeBytesToBlock (Block.encode b) = Ret b.
Proof. apply decode_encode. Qed.

Lemma decode_encode_any_block_witness :
  decodeBytesToBlock (Block.encode (Block.mk (bs "raw") [0; 65535; 7]))
  = Ret (Block.mk (bs "raw") [0; 65535; 7]).
Proof.
  apply (decode_encode_any_block (Block.mk (bs "raw") [0; 65535; 7])).
  - cbn [Block.offsets]. repeat constructor; lia.
  - reflexivity.
  - vm_compute. discriminate.
Defined.

Lemma decode_long_enough (bytes : list byte) :
  2 <= len bytes <= Int.max_int ->
  2 + 2 * offsetCount_of bytes <= len bytes ->
  exists b,
    decodeBytesToBlock bytes = Ret b /\
    Block.encode b = bytes /\
    len (Block.offsets b) = offsetCount_of bytes /\
    len (Block.data b) = len bytes - 2 - 2 * offsetCount_of bytes.
Proof.
  intros [H2 Hfit] Hlen.
  destruct (bytes_are_encoding bytes Hlen H2) as [b [Hb [Hr [Hc Hn]]]].
  exists b. split; [| split; [| split]].
  - rewrite Hb. apply decode_encode; [exact Hr | exact Hn |].
    rewrite <- Hb. exact Hfit.
  - symmetry. exact Hb.
  - exact Hc.
  - rewrite <- Hc. rewrite Hb at 1. rewrite len_encode. lia.
Qed.

(** X2: on every input of at least two bytes that is long enough for the
    offsets its last two bytes announce, [decodeBytesToBlock] returns a
    block: it has the announced number of offsets, its data are the bytes
    before the offsets, and encoding it gives the input back. *)
Theorem decode_returns (bytes : list byte) :
  2 <= len bytes <= Int.max_int ->
  2 + 2 * offsetCount_of bytes <= len bytes ->
  exists b,
    decodeBytesToBlock bytes = Ret b /\
    Block.encode b = bytes /\
    len (Block.offsets b) = offsetCount_of bytes /\
    len (Block.data b) = len bytes - 2 - 2 * offsetCount_of bytes.
Proof. apply decode_long_enough. Qed.

Lemma decode_returns_witness :
  exists b,
    decodeBytesToBlock [x61; x62; x00; x01; x00; x01] = Ret b /\
    Block.encode b = [x61; x62; x00; x01; x00; x01] /\
    len (Block.offsets b) = offsetCount_of [x61; x62; x00; x01; x00; x01] /\
    len (Block.data b)
    = len [x61; x62; x00; x01; x00; x01] - 2
      - 2 * offsetCount_of [x61; x62; x00; x01; x00; x01].
Proof.
  apply (decode_returns [x61; x62; x00; x01; x00; x01]).
  - vm_compute. split; discriminate.
  - vm_compute. discriminate.
Defined.

(** X3: on every input of at least two bytes whose last two bytes announce
    more offsets than the bytes before them can hold, [decodeBytesToBlock]
    panics with the slice-bounds error, on the first offset it reads. *)
Theorem decode_truncated_panics (bytes : list byte) :
  2 <= len bytes <= Int.max_int ->
  len bytes < 2 + 2 * offsetCount_of bytes ->
  decodeBytesToBlock bytes = Panic SliceBounds.
Proof. apply decode_truncated. Qed.

Lemma decode_truncated_panics_witness :
  decodeBytesToBlock [x61; x00; x01] = Panic SliceBounds.
Proof.
  apply (decode_truncated_panics [x61; x00; x01]).
  - vm_compute. split; discriminate.
  - vm_compute. reflexivity.
Defined.

(** X4: [decodeBytesToBlock] never returns a block that encodes to
    something other than its input: whenever it returns a block, [encode]
    of that block is the input, byte for byte; so it returns different
    blocks on different inputs. *)
Theorem encode_decode (bytes : list byte) (b : Block.t) :
  len bytes <= Int.max_int ->
  decodeBytesToBlock bytes = Ret b ->
  Block.encode b = bytes.
Proof.
  intros Hfit Hdec.
  destruct (Z.lt_ge_cases (len bytes) 2) as [Hshort | H2].
  { rewrite decode_below_two in Hdec by exact Hshort. discriminate. }
  destruct (Z.lt_ge_cases (len bytes) (2 + 2 * offsetCount_of bytes))
    as [Htrunc | Hlen].
  { rewrite decode_truncated in Hdec by (try split; assumption).
    discriminate. }
  destruct (bytes_are_encoding bytes Hlen H2) as [b0 [Hb [Hr [_ Hn]]]].
  rewrite Hb in Hdec at 1.
  rewrite decode_encode in Hdec; [| exact Hr | exact Hn | rewrite <- Hb; exact Hfit].
  inversion Hdec. subst b0. symmetry. exact Hb.
Qed.

Lemma encode_decode_witness :
  Block.encode (Block.mk [x61; x62] [1]) = [x61; x62; x00; x01; x00; x01].
Proof.
  apply (encode_decode [x61; x62; x00; x01; x00; x01] (Block.mk [x61; x62] [1])).
  - vm_compute. discriminate.
  - reflexivity.
Defined.

Lemma uint16_le (z : Z) : 0 <= z -> Int.uint16 z <= z.
Proof. intros H. unfold Int.uint16. apply Z.mod_le; lia. Qed.

Lemma offsetCount_of_encode (b : Block.t) :
  offsetCount_of (Block.encode b) = Int.uint16 (len (Block.offsets b)).
Proof.
  rewrite encode_layout, app_assoc.
  apply offsetCount_of_app, uint16_range.
Qed.

(** X5: what decoding an encoding gives, whatever the number of offsets.
    For every block with 16-bit offsets and an encoding whose length fits
    [int], [decodeBytesToBlock] returns a block on the encoding; that block
    has the number of offsets of the original modulo [2 ^ 16] and encodes
    to the same bytes, and it is the original block exactly when the
    original has fewer than [2 ^ 16] offsets. *)
Theorem decode_encode_modulo (b : Block.t) :
  Forall (fun o => 0 <= o < 2 ^ 16) (Block.offsets b) ->
  len (Block.encode b) <= Int.max_int ->
  exists b',
    decodeBytesToBlock (Block.encode b) = Ret b' /\
    len (Block.offsets b') = Int.uint16 (len (Block.offsets b)) /\
    Block.encode b' = Block.encode b /\
    (b' = b <-> len (Block.offsets b) < 2 ^ 16).
Proof.
  intros Hr Hfit.
  pose proof (len_nonneg (Block.offsets b)) as Ho.
  pose proof (len_nonneg (Block.data b)) as Hd.
  pose proof (uint16_le _ Ho) as Hle.
  pose proof (uint16_range (len (Block.offsets b))) as Hc.
  destruct (decode_long_enough (Block.encode b)) as [b' [Hdec [Henc [Hn _]]]].
  - split; [rewrite len_encode; lia | exact Hfit].
  - rewrite offsetCount_of_encode, len_encode. lia.
  - rewrite offsetCount_of_encode in Hn.
    exists b'. split; [exact Hdec |]. split; [exact Hn |].
    split; [exact Henc |]. split.
    + intros ->. lia.
    + intros Hlt. rewrite (decode_encode b Hr Hlt Hfit) in Hdec.
      inversion Hdec. reflexivity.
Qed.

Lemma decode_encode_modulo_witness :
  exists b',
    decodeBytesToBlock (Block.encode (Block.mk (bs "raw") [0; 65535; 7]))
    = Ret b' /\
    len (Block.offsets b')
    = Int.uint16 (len (Block.offsets (Block.mk (bs "raw") [0; 65535; 7]))) /\
    Block.encode b' = Block.encode (Block.mk (bs "raw") [0; 65535; 7]) /\
    (b' = Block.mk (bs "raw") [0; 65535; 7]
     <-> len (Block.offsets (Block.mk (bs "raw") [0; 65535; 7])) < 2 ^ 16).
Proof.
  apply (decode_encode_modulo (Block.mk (bs "raw") [0; 65535; 7])).
  - cbn [Block.offsets]. repeat constructor; lia.
  - vm_compute. discriminate.
Defined.


(* ------------------------------------------------------------------ *)
(** ** The builder across a run of records *)

(** X6: a run of accepted [add]s only appends: from any builder, the data
    afterwards are the data before followed by the records' bytes in the
    order added, the offsets are the offsets before followed by one offset
    per record (the position of the record in the data, as a 16-bit
    value), and the budget is unchanged. *)
Theorem add_all_appends (rs : list record) (b0 b : BlockBuilder.t) :
  add_all rs b0 = Some b ->
  BlockBuilder.data b = BlockBuilder.data b0 ++ flat_map encode_record rs /\
  BlockBuilder.offsets b
  = BlockBuilder.offsets b0 ++ offsets_of rs (len (BlockBuilder.data b0)) /\
  len (BlockBuilder.offsets b) = len (BlockBuilder.offsets b0) + len rs /\
  BlockBuilder.blockSize b = BlockBuilder.blockSize b0.
Proof.
  intros H. destruct (add_all_layout rs b0 b H) as [Hd [Ho Hs]].
  repeat split; try assumption.
  rewrite Ho, len_app, len_offsets_of. reflexivity.
Qed.

Lemma add_all_appends_witness :
  BlockBuilder.data example_builder
  = BlockBuilder.data (NewBlockBuilder 1024)
    ++ flat_map encode_record example_records /\
  BlockBuilder.offsets example_builder
  = BlockBuilder.offsets (NewBlockBuilder 1024)
    ++ offsets_of example_records (len (BlockBuilder.data (NewBlockBuilder 1024))) /\
  len (BlockBuilder.offsets example_builder)
  = len (BlockBuilder.offsets (NewBlockBuilder 1024)) + len example_records /\
  BlockBuilder.blockSize example_builder
  = BlockBuilder.blockSize (NewBlockBuilder 1024).
Proof.
  apply (add_all_appends example_records (NewBlockBuilder 1024) example_builder).
  reflexivity.
Defined.

Lemma add_accepted (k : list byte) (v : option (list byte))
    (b b' : BlockBuilder.t) :
  BlockBuilder.add k v b = (Ret true, b') ->
  k <> [] /\
  b' = BlockBuilder.mk
         (BlockBuilder.offsets b ++ [Int.uint16 (len (BlockBuilder.data b))])
         (BlockBuilder.data b ++ encode_record (k, v))
         (BlockBuilder.blockSize b) /\
  ((Int.uint (Int.int (BlockBuilder.estimatedSize b + len k
                       + valueLen_of v + 2 * 2 + 4))
    >? BlockBuilder.blockSize b)
   && negb (BlockBuilder.isEmpty b) = false).
Proof.
  rewrite add_unfold.
  destruct (len k =? 0) eqn:Ek; [discriminate |].
  destruct (_ && _) eqn:Eb; [discriminate |].
  intros H. inversion H. split; [| split; reflexivity].
  intros ->. discriminate.
Qed.

(** X7: an accepted [add] raises [estimatedSize] to the size it projected
    for the test against the budget: by the bytes of the record and the two
    bytes of its offset, [len(key) + valueLen + 8] in all. *)
Theorem add_grows_estimate (k : list byte) (v : option (list byte))
    (b b' : BlockBuilder.t) :
  BlockBuilder.add k v b = (Ret true, b') ->
  projected_size b k v <= Int.max_int ->
  BlockBuilder.estimatedSize b' = projected_size b k v /\
  BlockBuilder.estimatedSize b'
  = BlockBuilder.estimatedSize b + len k + valueLen_of v + 8.
Proof.
  intros Hadd Hfit. apply add_accepted in Hadd. destruct Hadd as [_ [-> _]].
  pose proof (len_nonneg (BlockBuilder.offsets b)) as Ho.
  pose proof (len_nonneg (BlockBuilder.data b)) as Hd.
  pose proof (len_nonneg k) as Hk.
  pose proof (valueLen_of_nonneg v) as Hv.
  unfold projected_size in *.
  unfold BlockBuilder.estimatedSize, SizeOfUint16InBytes.
  cbn [BlockBuilder.offsets BlockBuilder.data].
  rewrite !len_app, len_encode_record, len_cons, len_nil.
  rewrite !int_small by (unfold Int.max_int in *; lia). lia.
Qed.

Lemma add_grows_estimate_witness :
  BlockBuilder.estimatedSize
    (snd (BlockBuilder.add (bs "zelda") (Some (bs "link")) example_builder))
  = projected_size example_builder (bs "zelda") (Some (bs "link")) /\
  BlockBuilder.estimatedSize
    (snd (BlockBuilder.add (bs "zelda") (Some (bs "link")) example_builder))
  = BlockBuilder.estimatedSize example_builder + len (bs "zelda")
    + valueLen_of (Some (bs "link")) + 8.
Proof.
  apply (add_grows_estimate (bs "zelda") (Some (bs "link")) example_builder).
  - reflexivity.
  - vm_compute. discriminate.
Defined.

Lemma app_last_record (rs : list record) :
  2 <= len rs -> exists rs' r, rs = rs' ++ [r] /\ rs' <> [].
Proof.
  intros H. destruct (exists_last (l := rs)) as [rs' [r ->]].
  { intros ->. rewrite len_nil in H. lia. }
  exists rs', r. split; [reflexivity |]. intros ->.
  cbn in H. unfold len in H. cbn in H. lia.
Qed.

(** X8: the budget holds for every block of two or more records: when a
    builder from [NewBlockBuilder(B)] has accepted at least two records,
    the encoding of the block it builds is at most [B] bytes long.  (A
    block of one record may exceed the budget.) *)
Theorem built_block_within_budget (rs : list record) (B : Z)
    (b : BlockBuilder.t) :
  add_all rs (NewBlockBuilder B) = Some b ->
  2 <= len rs ->
  len (Block.encode (block_of b)) <= Int.max_int ->
  len (Block.encode (block_of b)) <= B.
Proof.
  intros Hall H2 Hfit.
  destruct (app_last_record rs H2) as [rs' [[k v] [-> Hne]]].
  rewrite add_all_app in Hall.
  destruct (add_all rs' (NewBlockBuilder B)) as [b1 |] eqn:H1; [| discriminate].
  cbn [add_all] in Hall.
  destruct (BlockBuilder.add k v b1) as [[[] | |] b2] eqn:Hadd;
    try discriminate.
  inversion Hall. subst b2. clear Hall.
  apply add_accepted in Hadd. destruct Hadd as [Hk [Hb Hcheck]].
  pose proof (add_all_built _ _ _ H1) as Hb1.
  assert (Hoffs : BlockBuilder.offsets b1 <> []).
  { rewrite Hb1. cbn [BlockBuilder.offsets]. rewrite offsets_of_nil_iff.
    exact Hne. }
  assert (Hsize : BlockBuilder.blockSize b1 = B) by (rewrite Hb1; reflexivity).
  assert (Hempty : BlockBuilder.isEmpty b1 = false).
  { destruct (BlockBuilder.isEmpty b1) eqn:E; [| reflexivity].
    apply isEmpty_nil in E. contradiction. }
  rewrite Hempty, andb_true_r, Z.gtb_ltb, Hsize in Hcheck.
  apply Z.ltb_ge in Hcheck.
  rewrite len_encode, block_of_offsets, block_of_data in *.
  rewrite Hb in *. cbn [BlockBuilder.offsets BlockBuilder.data] in *.
  rewrite !len_app, len_encode_record, len_cons, len_nil in *.
  pose proof (len_nonneg (BlockBuilder.offsets b1)) as Ho.
  pose proof (len_nonneg (BlockBuilder.data b1)) as Hd.
  pose proof (len_nonneg k) as Hkl.
  pose proof (valueLen_of_nonneg v) as Hv.
  unfold BlockBuilder.estimatedSize, SizeOfUint16InBytes in Hcheck.
  rewrite (int_small (2 + _ * 2 + _)) in Hcheck
    by (unfold Int.max_int in *; lia).
  rewrite int_small in Hcheck by (unfold Int.max_int in *; lia).
  rewrite uint_small in Hcheck by (unfold Int.max_int in *; lia).
  lia.
Qed.

Lemma built_block_within_budget_witness :
  len (Block.encode (block_of example_builder)) <= 1024.
Proof.
  apply (built_block_within_budget example_records 1024 example_builder).
  - reflexivity.
  - vm_compute. discriminate.
  - vm_compute. discriminate.
Defined.


(* ------------------------------------------------------------------ *)
(** ** From the builder to the iterator *)

Lemma nth_error_map_stored (rs : list record) (j : nat) (r : record) :
  nth_error rs j = Some r -> nth_error (map stored rs) j = Some (stored r).
Proof. intros H. rewrite nth_error_map, H. reflexivity. Qed.

(** X9: what goes into a builder comes out of the iterator.  For every
    non-empty run of accepted records whose data stay below [2 ^ 16]
    bytes: [build] returns a block, decoding its encoding gives it back,
    and on it the iterator from the first key is at index 0, [NextEntry] at
    index [j] returns the [j]-th record added (its key, and its value or a
    tombstone if the value was absent or empty) and moves to [j + 1], and
    after the last record [NextEntry] returns none. *)
Theorem built_block_iterates (rs : list record) (B : Z) (b : BlockBuilder.t) :
  add_all rs (NewBlockBuilder B) = Some b ->
  rs <> [] ->
  len (BlockBuilder.data b) < 2 ^ 16 ->
  exists blk,
    BlockBuilder.build b = (Some blk, None) /\
    decodeBytesToBlock (Block.encode blk) = Ret blk /\
    newBlockIteratorFromFirstKey blk = BlockIterator.mk blk 0 /\
    (forall (j : nat) (r : record),
       nth_error rs j = Some r ->
       BlockIterator.NextEntry (BlockIterator.mk blk (Z.of_nat j))
       = (Ret (Some (stored r)), BlockIterator.mk blk (Z.of_nat j + 1))) /\
    BlockIterator.NextEntry (BlockIterator.mk blk (len rs))
    = (Ret None, BlockIterator.mk blk (len rs)).
Proof.
  intros Hall Hne Hdata.
  pose proof (built_entries rs B b Hall Hdata) as He.
  pose proof (add_all_built _ _ _ Hall) as Hb.
  assert (Hcount : len (BlockBuilder.offsets b) = len rs).
  { rewrite Hb. cbn [BlockBuilder.offsets]. apply len_offsets_of. }
  assert (Hrs : 6 * len rs <= len (BlockBuilder.data b)).
  { rewrite Hb. cbn [BlockBuilder.data]. apply len_flat_map_records. }
  exists (block_of b).
  split; [| split; [| split; [reflexivity | split]]].
  - apply build_nonempty. rewrite Hb. cbn [BlockBuilder.offsets].
    rewrite offsets_of_nil_iff. exact Hne.
  - apply decode_encode.
    + rewrite block_of_offsets, Hb. cbn [BlockBuilder.offsets].
      apply offsets_of_range.
    + rewrite block_of_offsets. lia.
    + rewrite len_encode, block_of_offsets, block_of_data.
      unfold Int.max_int. lia.
  - intros j r Hr.
    rewrite (NextEntry_entries _ _ _ He) by lia.
    rewrite Nat2Z.id, (nth_error_map_stored _ _ _ Hr). reflexivity.
  - pose proof (len_nonneg rs) as Hn.
    rewrite (NextEntry_entries _ _ _ He) by lia.
    replace (nth_error (map stored rs) (Z.to_nat (len rs))) with
      (@None KeyValueDeletable.t); [reflexivity |].
    symmetry. apply nth_error_None. rewrite length_map. unfold len. lia.
Qed.

Lemma built_block_iterates_witness :
  exists blk,
    BlockBuilder.build example_builder = (Some blk, None) /\
    decodeBytesToBlock (Block.encode blk) = Ret blk /\
    newBlockIteratorFromFirstKey blk = BlockIterator.mk blk 0 /\
    (forall (j : nat) (r : record),
       nth_error example_records j = Some r ->
       BlockIterator.NextEntry (BlockIterator.mk blk (Z.of_nat j))
       = (Ret (Some (stored r)), BlockIterator.mk blk (Z.of_nat j + 1))) /\
    BlockIterator.NextEntry (BlockIterator.mk blk (len example_records))
    = (Ret None, BlockIterator.mk blk (len example_records)).
Proof.
  apply (built_block_iterates example_records 1024 example_builder).
  - reflexivity.
  - discriminate.
  - vm_compute. reflexivity.
Defined.

(* ------------------------------------------------------------------ *)
(** ** The iterator on arbitrary blocks *)

Lemma NextEntry_past_end (blk : Block.t) (i : Z) :
  Int.uint (len (Block.offsets blk)) <= i ->
  BlockIterator.NextEntry (BlockIterator.mk blk i)
  = (Ret None, BlockIterator.mk blk i).
Proof.
  intros H. unfold BlockIterator.NextEntry.
  rewrite load_past_end by exact H. reflexivity.
Qed.

(** X10: an exhausted iterator stays exhausted, on every block, well formed
    or not: once the index has reached the number of offsets, [NextEntry]
    and [Next] return none and leave the iterator where it is, so calling
    them again gives none again. *)
Theorem exhausted_stays_exhausted (blk : Block.t) (i : Z) (fuel : nat) :
  Int.uint (len (Block.offsets blk)) <= i ->
  (0 < fuel)%nat ->
  BlockIterator.NextEntry (BlockIterator.mk blk i)
  = (Ret None, BlockIterator.mk blk i) /\
  BlockIterator.Next fuel (BlockIterator.mk blk i)
  = Some (Ret None, BlockIterator.mk blk i).
Proof.
  intros H Hfuel. split; [apply NextEntry_past_end; exact H |].
  destruct fuel as [| fuel']; [lia |].
  cbn [BlockIterator.Next]. rewrite NextEntry_past_end by exact H.
  reflexivity.
Qed.

Lemma exhausted_stays_exhausted_witness :
  BlockIterator.NextEntry (BlockIterator.mk example_block 3)
  = (Ret None, BlockIterator.mk example_block 3) /\
  BlockIterator.Next 1 (BlockIterator.mk example_block 3)
  = Some (Ret None, BlockIterator.mk example_block 3).
Proof.
  apply (exhausted_stays_exhausted example_block 3 1).
  - vm_compute. discriminate.
  - lia.
Defined.

Lemma NextEntry_some (blk : Block.t) (i : Z) (kv : KeyValueDeletable.t)
    (it : BlockIterator.t) :
  0 <= i ->
  BlockIterator.NextEntry (BlockIterator.mk blk i) = (Ret (Some kv), it) ->
  i < Int.uint (len (Block.offsets blk)) /\ it = BlockIterator.mk blk (i + 1).
Proof.
  intros Hi. unfold BlockIterator.NextEntry.
  destruct (BlockIterator.loadAtCurrentOffset (BlockIterator.mk blk i))
    as [[kv' |] | p |] eqn:E; try discriminate.
  intros H. inversion H. subst kv'.
  pose proof (load_some_before_end _ _ _ E) as Hlt.
  split; [exact Hlt |].
  unfold BlockIterator.advance.
  cbn [BlockIterator.block BlockIterator.offsetIndex].
  assert (Int.uint (len (Block.offsets blk)) < 2 ^ 64).
  { unfold Int.uint. apply Z.mod_pos_bound. lia. }
  rewrite uint_small by lia. reflexivity.
Qed.

Lemma NextEntry_keeps (blk : Block.t) (i : Z) (o : outcome (option KeyValueDeletable.t))
    (it : BlockIterator.t) :
  0 <= i ->
  BlockIterator.NextEntry (BlockIterator.mk blk i) = (o, it) ->
  (forall kv, o <> Ret (Some kv)) ->
  it = BlockIterator.mk blk i.
Proof.
  intros Hi. unfold BlockIterator.NextEntry.
  destruct (BlockIterator.loadAtCurrentOffset (BlockIterator.mk blk i))
    as [[kv' |] | p |]; intros H Hno; inversion H; try reflexivity.
  subst o. exfalso. apply (Hno kv'). reflexivity.
Qed.

(** X11: the loop of [Next] ends on every block, well formed or not, and
    the iterator only moves forward within the offsets: from index [i],
    with one iteration more than the number of offsets left, [Next] returns
    (a pair, none, or a panic of the decoding), and the iterator it leaves
    is on the same block at an index not before [i] and not past the
    number of offsets (or [i], if that was past already). *)
Theorem Next_terminates (blk : Block.t) (fuel : nat) :
  forall i : Z,
    0 <= i ->
    Z.max 0 (Int.uint (len (Block.offsets blk)) - i) < Z.of_nat fuel ->
    exists (o : outcome (option KeyValue.t)) (j : Z),
      BlockIterator.Next fuel (BlockIterator.mk blk i)
      = Some (o, BlockIterator.mk blk j) /\
      i <= j <= Z.max i (Int.uint (len (Block.offsets blk))).
Proof.
  induction fuel as [| fuel IH]; intros i Hi Hfuel; [lia |].
  cbn [BlockIterator.Next].
  destruct (BlockIterator.NextEntry (BlockIterator.mk blk i))
    as [[[kv |] | p |] it] eqn:E.
  - destruct (NextEntry_some _ _ _ _ Hi E) as [Hlt ->].
    destruct (ValueDeletable.isTombstone _).
    + destruct (IH (i + 1)) as [o [j [HN Hj]]]; [lia | lia |].
      exists o, j. split; [exact HN | lia].
    + eexists _, (i + 1). split; [reflexivity | lia].
  - rewrite (NextEntry_keeps _ _ _ _ Hi E) by discriminate.
    eexists _, i. split; [reflexivity | lia].
  - rewrite (NextEntry_keeps _ _ _ _ Hi E) by discriminate.
    eexists _, i. split; [reflexivity | lia].
  - rewrite (NextEntry_keeps _ _ _ _ Hi E) by discriminate.
    eexists _, i. split; [reflexivity | lia].
Qed.

Lemma Next_terminates_witness :
  exists (o : outcome (option KeyValue.t)) (j : Z),
    BlockIterator.Next 4 (BlockIterator.mk example_block 0)
    = Some (o, BlockIterator.mk example_block j) /\
    0 <= j <= Z.max 0 (Int.uint (len (Block.offsets example_block))).
Proof.
  apply (Next_terminates example_block 4 0).
  - lia.
  - vm_compute. reflexivity.
Defined.

(** X12: an offset with fewer than two bytes of data behind it makes the
    iterator panic, and the panic leaves the iterator where it was: at an
    index within the offsets whose offset exceeds [len(data)], [NextEntry]
    and [Next] panic with the slice-bounds error; when the offset is within
    the data but fewer than two bytes follow, they panic with the index
    error of reading the key length. *)
Theorem bad_offset_panics (blk : Block.t) (i off : Z) (fuel : nat) :
  0 <= i < Int.uint (len (Block.offsets blk)) ->
  nth_error (Block.offsets blk) (Z.to_nat i) = Some off ->
  0 <= off ->
  len (Block.data blk) - 2 < off ->
  (0 < fuel)%nat ->
  BlockIterator.NextEntry (BlockIterator.mk blk i)
  = (Panic (if len (Block.data blk) <? off then SliceBounds
            else IndexOutOfRange),
     BlockIterator.mk blk i) /\
  BlockIterator.Next fuel (BlockIterator.mk blk i)
  = Some (Panic (if len (Block.data blk) <? off then SliceBounds
                 else IndexOutOfRange),
          BlockIterator.mk blk i).
Proof.
  intros Hi Hoff H0 Hshort Hfuel.
  assert (Hge : (i >=? Int.uint (len (Block.offsets blk))) = false).
  { destruct (Z.geb_spec i (Int.uint (len (Block.offsets blk)))); [lia |].
    reflexivity. }
  assert (HN : BlockIterator.NextEntry (BlockIterator.mk blk i)
               = (Panic (if len (Block.data blk) <? off then SliceBounds
                         else IndexOutOfRange),
                  BlockIterator.mk blk i)).
  { unfold BlockIterator.NextEntry, BlockIterator.loadAtCurrentOffset.
    cbn [BlockIterator.block BlockIterator.offsetIndex].
    rewrite Hge, Hoff. unfold slice_from at 1.
    destruct (Z.ltb_spec off 0); [lia |].
    destruct (Z.ltb_spec (len (Block.data blk)) off); [reflexivity |].
    cbn [orb bind].
    assert (Hl : (List.length (skipn (Z.to_nat off) (Block.data blk)) < 2)%nat).
    { rewrite length_skipn. unfold len in *. lia. }
    destruct (skipn (Z.to_nat off) (Block.data blk)) as [| x [| y tl]];
      [reflexivity | reflexivity | cbn in Hl; lia]. }
  split; [exact HN |].
  destruct fuel as [| fuel']; [lia |].
  cbn [BlockIterator.Next]. rewrite HN. reflexivity.
Qed.

Lemma bad_offset_panics_witness :
  BlockIterator.NextEntry (BlockIterator.mk (Block.mk (bs "ab") [5]) 0)
  = (Panic SliceBounds, BlockIterator.mk (Block.mk (bs "ab") [5]) 0) /\
  BlockIterator.Next 1 (BlockIterator.mk (Block.mk (bs "ab") [5]) 0)
  = Some (Panic SliceBounds, BlockIterator.mk (Block.mk (bs "ab") [5]) 0).
Proof.
  apply (bad_offset_panics (Block.mk (bs "ab") [5]) 0 5 1).
  - vm_compute. split; [discriminate | reflexivity].
  - reflexivity.
  - lia.
  - vm_compute. reflexivity.
  - lia.
Defined.

(* ------------------------------------------------------------------ *)
(** ** Seeking in a block of ascending keys *)










